(** * qtrade arbitrage router: the model built by [solve_arbitrage]

    A shallow embedding of [qtrade/arbitrage/core.py].  The function
    assembles a convex program with cvxpy and hands it to a solver; what is
    embedded here is the assembly: the incidence matrices, the decision
    variables, the extraction vector [psi], the objective, the post-trade
    reserves and the constraint list, each with the Python failure it can
    raise on the way.

    Numbers are real numbers ([R]): Python floats are read as the reals
    they stand for, rounding is out of scope.  Indices are [Z], because a
    Python index may be negative. *)

From Stdlib Require Import Reals Lra ZArith Lia.
From stdpp Require Import base option list strings.

Open Scope R_scope.

(** ** Python failures *)

Inductive pyerror : Type :=
| IndexError
| OverflowError
| ValueError
| TypeError.

Inductive result (A : Type) : Type :=
| Ok (a : A)
| Raise (e : pyerror).
Arguments Ok {A} a.
Arguments Raise {A} e.

#[export] Instance result_ret : MRet result := fun _ a => Ok a.
#[export] Instance result_bind : MBind result := fun _ _ f m =>
  match m with
  | Ok a => f a
  | Raise e => Raise e
  end.

Definition succeeds {A} (m : result A) : Prop := ∃ a, m = Ok a.
Definition fails {A} (m : result A) : Prop := ∃ e, m = Raise e.

(** [mapM] for [result], left to right, stopping at the first failure: the
    order in which a Python comprehension evaluates its elements. *)
Fixpoint traverse {A B} (f : A → result B) (l : list A) : result (list B) :=
  match l with
  | [] => Ok []
  | a :: l' => b ← f a; bs ← traverse f l'; Ok (b :: bs)
  end.

(** ** numpy arrays of rank two *)

Record matrix : Type := Matrix {
  nrows : nat;
  ncols : nat;
  entries : list (list R)
}.

(** [np.zeros((n, m))] *)
Definition zeros (n m : nat) : matrix :=
  Matrix n m (replicate n (replicate m 0)).

(** A Python int that numpy can hold in its index type, a signed 64-bit
    integer. *)
Definition fits_intp (idx : Z) : Prop := (- 2 ^ 63 ≤ idx < 2 ^ 63)%Z.

#[export] Instance fits_intp_dec idx : Decision (fits_intp idx).
Proof. unfold fits_intp. apply _. Defined.

(** numpy resolves an integer index [idx] on an axis of length [len]:
    [0 <= idx < len] is taken as it is, [-len <= idx < 0] counts from the
    end.  Anything else is refused: with [IndexError] when [idx] fits the
    index type, with [OverflowError] from the conversion when it does not.
    (numpy converts before it compares; an axis is shorter than [2^63], so
    the order of the two tests cannot be observed.) *)
Definition np_index (len : nat) (idx : Z) : result nat :=
  if decide (0 ≤ idx < Z.of_nat len)%Z then Ok (Z.to_nat idx)
  else if decide (- Z.of_nat len ≤ idx < 0)%Z then Ok (Z.to_nat (idx + Z.of_nat len))
  else if decide (fits_intp idx) then Raise IndexError
  else Raise OverflowError.

(** The row that numpy selects for an index in [[-len, len)]. *)
Definition resolve (len : nat) (idx : Z) : nat :=
  if decide (0 ≤ idx)%Z then Z.to_nat idx else Z.to_nat (idx + Z.of_nat len).

(** [A[idx, i] = v] *)
Definition setitem (A : matrix) (idx : Z) (i : nat) (v : R) : result matrix :=
  r ← np_index (nrows A) idx;
  c ← np_index (ncols A) (Z.of_nat i);
  Ok (Matrix (nrows A) (ncols A) (alter (λ row, <[c := v]> row) r (entries A))).

(** The body of [for i, idx in enumerate(l): A_i[idx, i] = 1], with the
    enumeration counter made explicit. *)
Fixpoint fill (A : matrix) (i : nat) (l : list Z) : result matrix :=
  match l with
  | [] => Ok A
  | idx :: l' => A' ← setitem A idx i 1; fill A' (S i) l'
  end.

(** One incidence matrix (lines 12 to 15). *)
Definition incidence (n : nat) (l : list Z) : result matrix :=
  fill (zeros n (length l)) 0 l.

(** The list [A] (lines 10 to 16). *)
Definition build_A (n : nat) (local_indices : list (list Z)) : result (list matrix) :=
  traverse (incidence n) local_indices.

(** Entry [(r, c)] of a matrix, when both are in range. *)
Definition entry (A : matrix) (r c : nat) : option R :=
  row ← entries A !! r; row !! c.

Definition shape (A : matrix) : nat * nat := (nrows A, ncols A).

(** The entries agree with the declared shape. *)
Definition well_shaped (A : matrix) : Prop :=
  length (entries A) = nrows A ∧ Forall (λ row, length row = ncols A) (entries A).

(** ** Python lists *)

(** [xs[k]] for a literal non-negative [k]. *)
Definition getitem {A} (xs : list A) (k : nat) : result A :=
  match xs !! k with
  | Some x => Ok x
  | None => Raise IndexError
  end.

(** [enumerate(xs)] *)
Definition enumerate {A} (xs : list A) : list (nat * A) :=
  zip (seq 0 (length xs)) xs.

(** ** cvxpy variables and affine expressions *)

(** [deltas] hold deposits, [lambdas] withdrawals. *)
Inductive vkind : Type := Deposit | Withdraw.

(** A cvxpy variable is an object with an identity of its own; the pair of
    its list ([deltas] or [lambdas]) and its position there stands for it. *)
Record variable : Type := CpVar {
  vkind_of : vkind;
  vpool : nat;
  vsize : nat;
  vnonneg : bool
}.

#[export] Instance vkind_eq_dec : EqDecision vkind.
Proof. solve_decision. Defined.
#[export] Instance variable_eq_dec : EqDecision variable.
Proof. solve_decision. Defined.

(** [cp.Variable(k, nonneg=b)].  [k] is the length of a list, so it is
    never negative, and cvxpy accepts every such size, [0] included (older
    releases of cvxpy refused [0]; the statements below that would differ
    there assume that no pool is empty). *)
Definition cp_Variable (kd : vkind) (pool k : nat) (b : bool) : result variable :=
  Ok (CpVar kd pool k b).

(** [[cp.Variable(len(l), nonneg=True) for l in local_indices]] *)
Definition variables (kd : vkind) (local_indices : list (list Z)) : result (list variable) :=
  traverse (λ '(i, l), cp_Variable kd i (length l) true) (enumerate local_indices).

Inductive expr : Type :=
| Const (v : list R)              (* a numpy vector or a list of numbers *)
| Scalar (c : R)                  (* a Python number *)
| Var (x : variable)
| Add (a b : expr)                (* a + b *)
| Sub (a b : expr)                (* a - b *)
| Scale (c : R) (a : expr)        (* c * a, c a Python number *)
| MatVec (A : matrix) (a : expr). (* A @ a, A a numpy matrix *)

(** Shapes of the expressions met here: [()] and [(k,)]. *)
Inductive shp : Type := Sc | Vec (k : nat).

#[export] Instance shp_eq_dec : EqDecision shp.
Proof. solve_decision. Defined.

(** Shape of a sum or difference, by numpy's broadcasting rule. *)
Definition broadcast (s t : shp) : result shp :=
  match s, t with
  | Sc, u | u, Sc => Ok u
  | Vec j, Vec k =>
      if decide (j = k) then Ok (Vec j)
      else if decide (j = 1)%nat then Ok (Vec k)
      else if decide (k = 1)%nat then Ok (Vec j)
      else Raise ValueError
  end.

(** cvxpy computes the shape of an expression when it is built and raises
    [ValueError] if the shapes of the operands do not fit. *)
Fixpoint shape_of (e : expr) : result shp :=
  match e with
  | Const v => Ok (Vec (length v))
  | Scalar _ => Ok Sc
  | Var x => Ok (Vec (vsize x))
  | Add a b | Sub a b => s ← shape_of a; t ← shape_of b; broadcast s t
  | Scale _ a => shape_of a
  | MatVec A a =>
      s ← shape_of a;
      if decide (s = Vec (ncols A)) then Ok (Vec (nrows A)) else Raise ValueError
  end.

(** An operator application: the expression, once its shape is accepted. *)
Definition checked (e : expr) : result expr :=
  _ ← shape_of e; Ok e.

(** [cp.sum] of a Python list is the builtin [sum]: [0 + t1 + t2 + ...],
    and the int [0] itself ([None] here) when the list is empty. *)
Definition cp_sum_list (terms : list expr) : result (option expr) :=
  match terms with
  | [] => Ok None
  | t :: ts =>
      e ← checked (Add (Scalar 0) t);
      e' ← foldl (λ acc u, a ← acc; checked (Add a u)) (Ok e) ts;
      Ok (Some e')
  end.

(** [A_i @ (L - D)] *)
Definition extraction_term (t : matrix * (variable * variable)) : result expr :=
  let '(A_i, (D, L)) := t in
  d ← checked (Sub (Var L) (Var D));
  checked (MatVec A_i d).

(** ** The program handed to the solver *)

(** [cp.Maximize(c @ e)] *)
Inductive objective : Type :=
| Maximize (c : list R) (e : expr).

(** [market_value @ psi], [market_value] a list of numbers: a Python int
    has no [@]; with an expression the lengths must agree. *)
Definition cp_matmul_list (c : list R) (psi : option expr) : result (list R * expr) :=
  match psi with
  | None => Raise TypeError
  | Some e =>
      s ← shape_of e;
      if decide (s = Vec (length c)) then Ok (c, e) else Raise ValueError
  end.

Inductive constraint : Type :=
| GeoMeanGe (x : expr) (p : option (list nat)) (r : list R)
    (* cp.geo_mean(x, p=p) >= cp.geo_mean(r) *)
| SumGe (x : expr) (r : list R)
    (* cp.sum(x) >= cp.sum(r) *)
| NonNeg (x : expr).
    (* x >= 0 *)

(** The weights of [cp.geo_mean(x, p=p)] on an argument of length [k]:
    [p], or all ones when [p] is not given. *)
Definition weights (p : option (list nat)) (k : nat) : list nat :=
  match p with
  | Some w => w
  | None => replicate k 1%nat
  end.

(** [cp.geo_mean] accepts a vector with as many entries as weights, the
    weights not all zero.  cvxpy rejects anything else when the atom is
    built; [ValueError] is the class its own checks raise, and no statement
    below depends on the class of this rejection. *)
Definition cp_geo_mean (s : shp) (p : option (list nat)) : result unit :=
  match s with
  | Sc => Raise ValueError
  | Vec k =>
      if decide (length (weights p k) = k ∧ (0 < sum_list (weights p k))%nat)
      then Ok () else Raise ValueError
  end.

(** One line [cp.geo_mean(new_reserves[k], p=p) >= cp.geo_mean(reserves[k])]
    of the constraint list, evaluated left to right. *)
Definition geo_mean_line (new_reserves : list expr) (reserves : list (list R))
    (k : nat) (p : option (list nat)) : result constraint :=
  x ← getitem new_reserves k;
  s ← shape_of x;
  _ ← cp_geo_mean s p;
  r ← getitem reserves k;
  _ ← cp_geo_mean (Vec (length r)) None;
  Ok (GeoMeanGe x p r).

(** [cp.sum(new_reserves[k]) >= cp.sum(reserves[k])] *)
Definition sum_line (new_reserves : list expr) (reserves : list (list R))
    (k : nat) : result constraint :=
  x ← getitem new_reserves k;
  r ← getitem reserves k;
  Ok (SumGe x r).

(** [new_reserves[k] >= 0] *)
Definition nonneg_line (new_reserves : list expr) (k : nat) : result constraint :=
  x ← getitem new_reserves k;
  Ok (NonNeg x).

(** The list [cons] (lines 30 to 38). *)
Definition build_cons (new_reserves : list expr) (reserves : list (list R))
    (psi : expr) : result (list constraint) :=
  c0 ← geo_mean_line new_reserves reserves 0 (Some [4; 3; 2; 1]%nat);
  c1 ← geo_mean_line new_reserves reserves 1 None;
  c2 ← geo_mean_line new_reserves reserves 2 None;
  c3 ← geo_mean_line new_reserves reserves 3 None;
  c4 ← sum_line new_reserves reserves 4;
  c5 ← nonneg_line new_reserves 4;
  Ok [c0; c1; c2; c3; c4; c5; NonNeg psi].

(** [R + gamma_i * D - L].  Both operators check the shapes of their
    operands.  (cvxpy returns the other operand of [+] as it is when the
    constant is all zeros, so for such a reserve vector the first check is
    not made; the statements below assert no failure for a reserve vector
    that is all zeros.) *)
Definition post_trade (t : list R * (R * (variable * variable))) : result expr :=
  let '(R_, (gamma_i, (D, L))) := t in
  a ← checked (Add (Const R_) (Scale gamma_i (Var D)));
  checked (Sub a (Var L)).

(** The list [new_reserves] (line 27); [zip] stops at the shortest list. *)
Definition build_new_reserves (reserves : list (list R)) (fees : list R)
    (deltas lambdas : list variable) : result (list expr) :=
  traverse post_trade (zip reserves (zip fees (zip deltas lambdas))).

Record problem : Type := Problem {
  prob_objective : objective;
  prob_constraints : list constraint
}.

(** Everything [solve_arbitrage] has built when it reaches [prob.solve()]. *)
Record model : Type := Model {
  m_A : list matrix;
  m_deltas : list variable;
  m_lambdas : list variable;
  m_psi : expr;
  m_new_reserves : list expr;
  m_prob : problem
}.

(** Everything built before the constraint list. *)
Record expressions : Type := Expressions {
  e_A : list matrix;
  e_deltas : list variable;
  e_lambdas : list variable;
  e_c : list R;
  e_psi : expr;
  e_new_reserves : list expr
}.

(** Lines 9 to 27 of [solve_arbitrage]. *)
Definition build_expressions (global_indices : list Z) (local_indices : list (list Z))
    (reserves : list (list R)) (fees : list R) (market_value : list R)
    : result expressions :=
  let n := length global_indices in
  A ← build_A n local_indices;
  deltas ← variables Deposit local_indices;
  lambdas ← variables Withdraw local_indices;
  terms ← traverse extraction_term (zip A (zip deltas lambdas));
  psi ← cp_sum_list terms;
  '(c, psi) ← cp_matmul_list market_value psi;
  new_reserves ← build_new_reserves reserves fees deltas lambdas;
  Ok (Expressions A deltas lambdas c psi new_reserves).

(** Lines 9 to 41 of [solve_arbitrage]. *)
Definition build_model (global_indices : list Z) (local_indices : list (list Z))
    (reserves : list (list R)) (fees : list R) (market_value : list R) : result model :=
  e ← build_expressions global_indices local_indices reserves fees market_value;
  cons ← build_cons (e_new_reserves e) reserves (e_psi e);
  Ok (Model (e_A e) (e_deltas e) (e_lambdas e) (e_psi e) (e_new_reserves e)
        (Problem (Maximize (e_c e) (e_psi e)) cons)).

(** The solver is an external capability: it takes the assembled program
    and answers with a status. *)
Section Solver.
Context {Status : Type} (solve : problem → Status).

(** [solve_arbitrage]: the value returned is
    [(prob, deltas, lambdas, A)], the problem carrying its status. *)
Definition solve_arbitrage (global_indices : list Z) (local_indices : list (list Z))
    (reserves : list (list R)) (fees : list R) (market_value : list R)
    : result ((problem * Status) * list variable * list variable * list matrix) :=
  m ← build_model global_indices local_indices reserves fees market_value;
  Ok ((m_prob m, solve (m_prob m)), m_deltas m, m_lambdas m, m_A m).
End Solver.

(** ** What the expressions and constraints mean *)

(** A value for every variable. *)
Definition assignment : Type := variable → list R.

Definition Rsum (v : list R) : R := foldr Rplus 0 v.

Definition dot (u v : list R) : R := Rsum (zip_with Rmult u v).

(** Entry-wise operation with numpy's broadcasting of a single entry. *)
Definition bcast (f : R → R → R) (u v : list R) : list R :=
  match u, v with
  | [a], _ => map (f a) v
  | _, [b] => map (λ a, f a b) u
  | _, _ => zip_with f u v
  end.

Fixpoint eval (ρ : assignment) (e : expr) : list R :=
  match e with
  | Const v => v
  | Scalar c => [c]
  | Var x => ρ x
  | Add a b => bcast Rplus (eval ρ a) (eval ρ b)
  | Sub a b => bcast Rminus (eval ρ a) (eval ρ b)
  | Scale c a => map (Rmult c) (eval ρ a)
  | MatVec A a => map (λ row, dot row (eval ρ a)) (entries A)
  end.

(** The [k]-th root of a non-negative real. *)
Definition root (k : nat) (y : R) : R :=
  if Rle_dec y 0 then 0 else Rpower y (/ INR k).

(** [geo_mean(x, p=w)]: the product of the [x_i ^ w_i], to the power
    [1 / sum w]. *)
Definition geo_mean (x : list R) (w : list nat) : R :=
  root (sum_list w) (foldr Rmult 1 (zip_with pow x w)).

Definition nonneg_vec (v : list R) : Prop := Forall (λ a, 0 <= a) v.

(** An assignment satisfies a constraint.  The geometric mean is defined on
    non-negative arguments only, so a constraint on it confines its argument
    to them. *)
Definition sat (ρ : assignment) (c : constraint) : Prop :=
  match c with
  | GeoMeanGe x p r =>
      nonneg_vec (eval ρ x) ∧
      geo_mean r (weights None (length r))
        <= geo_mean (eval ρ x) (weights p (length (eval ρ x)))
  | SumGe x r => Rsum r <= Rsum (eval ρ x)
  | NonNeg x => nonneg_vec (eval ρ x)
  end.

(** A variable takes a value of its own size, non-negative if declared so. *)
Definition admissible (ρ : assignment) (x : variable) : Prop :=
  length (ρ x) = vsize x ∧ (vnonneg x = true → nonneg_vec (ρ x)).

Fixpoint vars (e : expr) : list variable :=
  match e with
  | Const _ | Scalar _ => []
  | Var x => [x]
  | Add a b | Sub a b => vars a ++ vars b
  | Scale _ a | MatVec _ a => vars a
  end.

Definition constraint_expr (c : constraint) : expr :=
  match c with
  | GeoMeanGe x _ _ | SumGe x _ | NonNeg x => x
  end.

Definition objective_expr (o : objective) : expr :=
  match o with Maximize _ e => e end.

Definition problem_vars (P : problem) : list variable :=
  vars (objective_expr (prob_objective P))
    ++ concat (map (λ c, vars (constraint_expr c)) (prob_constraints P)).

Definition objective_value (ρ : assignment) (o : objective) : R :=
  match o with Maximize c e => dot c (eval ρ e) end.

Definition feasible (ρ : assignment) (P : problem) : Prop :=
  (∀ x, x ∈ problem_vars P → admissible ρ x) ∧
  Forall (sat ρ) (prob_constraints P).

(** An optimum of a maximisation: feasible, and no feasible assignment
    does better. *)
Definition optimal_at (ρ : assignment) (P : problem) : Prop :=
  feasible ρ P ∧
  ∀ ρ', feasible ρ' P →
    objective_value ρ' (prob_objective P) <= objective_value ρ (prob_objective P).

(** No trade at all: every deposit and every withdrawal is zero. *)
Definition zero_trade : assignment := λ x, replicate (vsize x) 0.

(** A constraint is a geometric-mean constraint. *)
Definition is_geo_mean (c : constraint) : bool :=
  match c with GeoMeanGe _ _ _ => true | _ => false end.

(** A constraint mentions a variable of pool [l]. *)
Definition mentions_pool (l : nat) (c : constraint) : Prop :=
  ∃ x, x ∈ vars (constraint_expr c) ∧ vpool x = l.

(** ** Vocabulary of the statements *)

(** An index that numpy accepts on an axis of length [n]. *)
Definition in_range (n : nat) (idx : Z) : Prop :=
  (- Z.of_nat n ≤ idx < Z.of_nat n)%Z.

(** The expression [A_i @ (L - D)] of one pool. *)
Definition term_of (t : matrix * (variable * variable)) : expr :=
  let '(A_i, (D, L)) := t in MatVec A_i (Sub (Var L) (Var D)).

(** What a pool's trade hands to the trader, in global coordinates: its
    incidence matrix applied to withdrawal minus deposit. *)
Definition extracted (ρ : assignment) (t : matrix * (variable * variable)) : list R :=
  let '(A_i, (D, L)) := t in
  map (λ row, dot row (zip_with Rminus (ρ L) (ρ D))) (entries A_i).

(** Sum of vectors of length [n]. *)
Definition vsum (n : nat) (vs : list (list R)) : list R :=
  foldl (zip_with Rplus) (replicate n 0) vs.

(** The expression [R + gamma_i * D - L] of one pool. *)
Definition post_trade_expr (R_ : list R) (gamma_i : R) (D L : variable) : expr :=
  Sub (Add (Const R_) (Scale gamma_i (Var D))) (Var L).

(** The pools that [zip] keeps on line 27: those that have a reserve vector
    and a fee. *)
Definition usable_pools (li : list (list Z)) (rs : list (list R)) (fs : list R) : nat :=
  length rs `min` (length fs `min` length li).

(** An input on which nothing before the constraint list fails: indices
    that numpy accepts, no empty pool, at least one pool, one price per
    global asset, and for each pool kept by [zip] a reserve vector as long
    as its index list. *)
Definition well_formed (gi : list Z) (li : list (list Z)) (rs : list (list R))
    (fs mv : list R) : Prop :=
  Forall (Forall (in_range (length gi))) li ∧
  Forall (λ l, l ≠ []) li ∧
  li ≠ [] ∧
  length mv = length gi ∧
  ∀ k l R_, (k < usable_pools li rs fs)%nat → li !! k = Some l → rs !! k = Some R_ →
    length R_ = length l.

(** The inputs that the specification calls valid: every index in
    [[0, n)], as many reserve vectors and fees as pools, each reserve vector
    as long as its pool's index list and non-negative, every fee retention
    in [(0, 1]], one price per global asset. *)
Definition valid_input (gi : list Z) (li : list (list Z)) (rs : list (list R))
    (fs mv : list R) : Prop :=
  Forall (Forall (λ idx, (0 ≤ idx < Z.of_nat (length gi))%Z)) li ∧
  length rs = length li ∧ length fs = length li ∧
  Forall2 (λ l R_, length R_ = length l ∧ nonneg_vec R_) li rs ∧
  Forall (λ g, 0 < g <= 1) fs ∧
  length mv = length gi.

(** Line [k] of the constraint list finds what it needs. *)
Definition line_ready (nr : list expr) (rs : list (list R)) (k : nat) : Prop :=
  ∃ x r a, nr !! k = Some x ∧ rs !! k = Some r ∧ r ≠ [] ∧
           shape_of x = Ok (Vec a) ∧ a ≠ 0%nat ∧ (k = 0%nat → a = 4%nat).

(** ** The reference scenario of the test suite *)

Definition test_global_indices : list Z := [0; 1; 2; 3]%Z.
Definition test_local_indices : list (list Z) :=
  [[0; 1; 2; 3]; [0; 1]; [1; 2]; [2; 3]; [2; 3]]%Z.
Definition test_reserves : list (list R) :=
  [[4; 4; 4; 4]; [10; 1]; [1; 5]; [40; 50]; [10; 10]].
Definition test_fees : list R := [0.998; 0.997; 0.997; 0.997; 0.999].
Definition test_market_value : list R := [1.5; 10; 2; 3].

(** The failing scenario for zero trade: the reference scenario, with the
    first pool holding [1, 1, 1, 16]. *)
Definition skewed_reserves : list (list R) :=
  [[1; 1; 1; 16]; [10; 1]; [1; 5]; [40; 50]; [10; 10]].

(** ** The test [test_arbitrage] *)

(** How a run of the test can end badly: an exception of the call itself,
    a failed [assert], or an attribute that the object does not have (the
    line of the test file is kept). *)
Inductive test_failure : Type :=
| Propagated (e : pyerror)
| AssertionError (line : nat)
| AttributeError (line : nat).

Inductive outcome : Type :=
| Passed
| Failed (f : test_failure).

(** Lines 26 to 30 of the test: the assertions on what was returned.  [A]
    is the Python list built on lines 10 to 16, and a list has no attribute
    [shape]. *)
Definition test_checks (status : string) (deltas lambdas : list variable)
    (A : list matrix) (global_indices : list Z) (local_indices : list (list Z))
    : outcome :=
  if negb (bool_decide (status = "optimal")) then Failed (AssertionError 26)
  else if negb (bool_decide (length deltas = length global_indices))
  then Failed (AssertionError 27)
  else if negb (bool_decide (length lambdas = length local_indices))
  then Failed (AssertionError 28)
  else Failed (AttributeError 29).

(** Lines 23 to 30, for any data. *)
Definition test_body (solve : problem → string) (global_indices : list Z)
    (local_indices : list (list Z)) (reserves : list (list R))
    (fees market_value : list R) : outcome :=
  match solve_arbitrage solve global_indices local_indices reserves fees market_value with
  | Raise e => Failed (Propagated e)
  | Ok ((_, status), deltas, lambdas, A) =>
      test_checks status deltas lambdas A global_indices local_indices
  end.

(** [test_arbitrage], the solver being the one of the cvxpy installation. *)
Definition test_arbitrage (solve : problem → string) : outcome :=
  test_body solve test_global_indices test_local_indices test_reserves
    test_fees test_market_value.

(** ** More vocabulary *)

(** The indices of a pool with the negative ones counted from the end. *)
Definition normalise (n : nat) (l : list Z) : list Z :=
  (λ idx, Z.of_nat (resolve n idx)) <$> l.

(** Row [r] of the incidence matrix of the index list [l]. *)
Definition indicator_row (n : nat) (l : list Z) (r : nat) : list R :=
  (λ idx, if decide (r = resolve n idx) then 1 else 0) <$> l.

(** What reaches global asset [r] when the local amounts [v] of a pool are
    carried to their global indices: the amounts of the slots mapped to [r],
    added up. *)
Definition scattered (n : nat) (l : list Z) (v : list R) (r : nat) : R :=
  Rsum (zip_with (λ idx x, if decide (r = resolve n idx) then x else 0) l v).

(** Withdraw [t] from the first slot of pool [k] and trade nothing else. *)
Definition drain (k : nat) (t : R) : assignment := λ x,
  if decide (vkind_of x = Withdraw ∧ vpool x = k)
  then <[0%nat := t]> (replicate (vsize x) 0)
  else replicate (vsize x) 0.

(** A round trip through pools 3 and 4 of the reference scenario, both on
    assets 2 and 3: pool 3 takes 1 of asset 2 and gives 1.2 of asset 3,
    pool 4 takes the 1.2 of asset 3 and gives 1.1 of asset 2.  The trader
    keeps 0.1 of asset 2. *)
Definition arbitrage_trade : assignment := λ x,
  resize (vsize x) 0
    match vkind_of x, vpool x with
    | Deposit, 3%nat => [1; 0]
    | Withdraw, 3%nat => [0; 1.2]
    | Deposit, 4%nat => [0; 1.2]
    | Withdraw, 4%nat => [1.1; 0]
    | _, _ => []
    end.

(** The reference scenario with a sixth pool on assets 0 and 1. *)
Definition six_local_indices : list (list Z) := test_local_indices ++ [[0; 1]%Z].
Definition six_reserves : list (list R) := test_reserves ++ [[5; 5]].
Definition six_fees : list R := test_fees ++ [0.997].

(** * The reference scenario builds *)

Example test_builds :
  succeeds (build_model test_global_indices test_local_indices test_reserves
              test_fees test_market_value).
Proof. eexists. reflexivity. Qed.

(** * The error monad *)

Lemma bind_Ok {A B} (f : A → result B) (m : result A) (b : B) :
  m ≫= f = Ok b ↔ ∃ a, m = Ok a ∧ f a = Ok b.
Proof.
  destruct m as [a|e]; simpl; split.
  - eauto.
  - intros (a' & [= <-] & H); exact H.
  - discriminate.
  - intros (a' & [=] & _).
Qed.

Lemma bind_Raise {A B} (f : A → result B) (m : result A) (e : pyerror) :
  m ≫= f = Raise e ↔ m = Raise e ∨ ∃ a, m = Ok a ∧ f a = Raise e.
Proof.
  destruct m as [a|e']; simpl; split.
  - intros H. right. eauto.
  - intros [[=] | (a' & [= <-] & H)]; exact H.
  - intros [= ->]. by left.
  - intros [[= ->] | (a' & [=] & _)]. done.
Qed.

Lemma bind_Ok_l {A B} (f : A → result B) (a : A) : Ok a ≫= f = f a.
Proof. reflexivity. Qed.

(** Peel the binds of a successful run, left to right. *)
Ltac inv_ok H :=
  repeat match type of H with
  | _ ≫= _ = Ok _ =>
      let a := fresh "a" in let Ha := fresh "Hrun" in
      apply bind_Ok in H; destruct H as (a & Ha & H)
  end.

Lemma traverse_Ok_length {A B} (f : A → result B) l bs :
  traverse f l = Ok bs → length bs = length l.
Proof.
  revert bs; induction l as [|a l IH]; intros bs H; simpl in H.
  - by injection H as <-.
  - inv_ok H. injection H as <-. simpl. f_equal. eauto.
Qed.

Lemma traverse_Ok_lookup {A B} (f : A → result B) l bs i a :
  traverse f l = Ok bs → l !! i = Some a → ∃ b, bs !! i = Some b ∧ f a = Ok b.
Proof.
  revert bs i; induction l as [|a' l IH]; intros bs i H Hi; [done|].
  simpl in H. inv_ok H. injection H as <-.
  destruct i as [|i]; simpl in *.
  - injection Hi as ->. eauto.
  - eauto.
Qed.

Lemma traverse_all_Ok {A B} (f : A → result B) l :
  Forall (λ a, succeeds (f a)) l → succeeds (traverse f l).
Proof.
  induction 1 as [|a l [b Hb] _ [bs Hbs]]; simpl.
  - by eexists.
  - rewrite Hb, Hbs. by eexists.
Qed.

Lemma traverse_Raise {A B} (f : A → result B) l e :
  traverse f l = Raise e → ∃ a, a ∈ l ∧ f a = Raise e.
Proof.
  induction l as [|a l IH]; simpl; [done|].
  intros H. apply bind_Raise in H as [H | (b & Hb & H)].
  - exists a. split; [apply list_elem_of_here | done].
  - apply bind_Raise in H as [H | (bs & Hbs & H)]; [|done].
    destruct (IH H) as (a' & ? & ?). exists a'.
    split; [by apply list_elem_of_further | done].
Qed.

Lemma traverse_one_fails {A B} (f : A → result B) l a :
  a ∈ l → fails (f a) → fails (traverse f l).
Proof.
  intros Hin [e Ha]. induction Hin as [a l | a a' l Hin IH]; simpl.
  - rewrite Ha. by exists e.
  - destruct (f a') as [b|e'] eqn:Hb; simpl; [|by exists e'].
    destruct (IH Ha) as [e2 He2]. rewrite He2. by exists e2.
Qed.

(** * Index mapper *)

Lemma np_index_in_range len idx :
  (- Z.of_nat len ≤ idx < Z.of_nat len)%Z →
  np_index len idx = Ok (resolve len idx) ∧ (resolve len idx < len)%nat.
Proof.
  intros H. unfold np_index, resolve.
  repeat case_decide; split; try done; lia.
Qed.

Lemma np_index_out_of_range len idx :
  (idx < - Z.of_nat len ∨ Z.of_nat len ≤ idx)%Z ↔ fails (np_index len idx).
Proof.
  unfold np_index, fails.
  repeat case_decide; split; try lia; try (by intros [e ?]); by eexists.
Qed.

Lemma np_index_error len idx e :
  fits_intp idx → np_index len idx = Raise e → e = IndexError.
Proof. intros Hfit. unfold np_index. repeat case_decide; congruence. Qed.

Lemma np_index_overflow len idx :
  ¬ fits_intp idx → ¬ in_range len idx → np_index len idx = Raise OverflowError.
Proof.
  unfold in_range, np_index. intros Hfit Hout.
  repeat case_decide; try done; lia.
Qed.

Lemma setitem_spec A idx i v :
  well_shaped A → (- Z.of_nat (nrows A) ≤ idx < Z.of_nat (nrows A))%Z → (i < ncols A)%nat →
  ∃ A', setitem A idx i v = Ok A' ∧ shape A' = shape A ∧ well_shaped A' ∧
    ∀ r c, entry A' r c =
      if decide (r = resolve (nrows A) idx ∧ c = i) then Some v else entry A r c.
Proof.
  intros [Hlen Hrows] Hidx Hi.
  destruct (np_index_in_range _ _ Hidx) as [Hr Hlt].
  assert (Hc : np_index (ncols A) (Z.of_nat i) = Ok i).
  { destruct (np_index_in_range (ncols A) (Z.of_nat i)) as [-> _]; [lia|].
    unfold resolve. rewrite decide_True by lia. by rewrite Nat2Z.id. }
  unfold setitem. rewrite Hr, Hc. simpl. eexists. split; [done|].
  split; [done|]. split.
  - split; simpl.
    + by rewrite length_alter.
    + apply Forall_lookup. intros k row Hk.
      destruct (decide (k = resolve (nrows A) idx)) as [->|Hne].
      * rewrite list_lookup_alter_eq in Hk.
        destruct (entries A !! _) as [row0|] eqn:Hrow0; simplify_eq/=.
        rewrite length_insert. eapply (proj1 (Forall_lookup _ _)) in Hrows; eauto.
      * rewrite list_lookup_alter_ne in Hk by done.
        eapply (proj1 (Forall_lookup _ _)) in Hrows; eauto.
  - intros r c. unfold entry; simpl.
    destruct (decide (r = resolve (nrows A) idx)) as [->|Hne].
    + rewrite list_lookup_alter_eq.
      destruct (entries A !! _) as [row0|] eqn:Hrow0; simpl.
      * assert (length row0 = ncols A) as Hl.
        { eapply (proj1 (Forall_lookup _ _)) in Hrows; eauto. }
        destruct (decide (c = i)) as [->|Hci].
        -- rewrite decide_True by done. apply list_lookup_insert_eq. lia.
        -- rewrite decide_False by tauto. by apply list_lookup_insert_ne.
      * apply lookup_ge_None in Hrow0. lia.
    + rewrite list_lookup_alter_ne by done. rewrite decide_False by tauto. done.
Qed.

Lemma fill_spec l : ∀ A i,
  well_shaped A → Forall (in_range (nrows A)) l → (i + length l ≤ ncols A)%nat →
  ∃ A', fill A i l = Ok A' ∧ shape A' = shape A ∧ well_shaped A' ∧
    ∀ r c, entry A' r c =
      match l !! (c - i)%nat with
      | Some idx =>
          if decide ((i ≤ c)%nat ∧ r = resolve (nrows A) idx) then Some 1 else entry A r c
      | None => entry A r c
      end.
Proof.
  induction l as [|idx l IH]; intros A i HA Hl Hi; simpl.
  - exists A. repeat split; try done; apply HA.
  - apply Forall_cons in Hl as [Hidx Hl]. simpl in Hi.
    destruct (setitem_spec A idx i 1 HA Hidx) as (A1 & -> & Hsh & HA1 & Hent); [lia|].
    simpl. injection Hsh as Hr Hc.
    destruct (IH A1 (S i)) as (A' & -> & Hsh' & HA' & Hent'); [done|by rewrite Hr|lia|].
    exists A'. split; [done|]. split; [by rewrite Hsh'; unfold shape; rewrite Hr, Hc|].
    split; [done|]. intros r c. rewrite Hent', Hent, Hr.
    destruct (decide (c < i)%nat) as [Hlt|Hge].
    + replace (c - S i)%nat with 0%nat by lia. replace (c - i)%nat with 0%nat by lia.
      simpl. rewrite (decide_False (P := _ ∧ c = i)) by lia.
      rewrite (decide_False (P := (i ≤ c)%nat ∧ _)) by lia.
      destruct (l !! 0%nat); [rewrite decide_False by lia|]; done.
    + destruct (decide (c = i)) as [->|Hne].
      * replace (i - i)%nat with 0%nat by lia. replace (i - S i)%nat with 0%nat by lia.
        simpl.
        destruct (l !! 0%nat); [rewrite (decide_False (P := (S i ≤ i)%nat ∧ _)) by lia|];
          repeat case_decide; try done; exfalso; intuition lia.
      * replace (c - i)%nat with (S (c - S i)) by lia. simpl.
        rewrite (decide_False (P := _ ∧ c = i)) by tauto.
        destruct (l !! (c - S i)%nat); [|done].
        repeat case_decide; try done; exfalso; intuition lia.
Qed.

Lemma fill_raises l : ∀ A i,
  well_shaped A → (i + length l ≤ ncols A)%nat →
  Exists (λ idx, ¬ in_range (nrows A) idx) l → fails (fill A i l).
Proof.
  induction l as [|idx l IH]; intros A i HA Hi Hex; [by apply Exists_nil in Hex|].
  simpl in *. destruct (decide (in_range (nrows A) idx)) as [Hin|Hout].
  - destruct (setitem_spec A idx i 1 HA Hin) as (A1 & -> & Hsh & HA1 & _); [lia|].
    injection Hsh as Hr Hc. simpl. apply IH; [done|lia|].
    apply Exists_cons in Hex as [?|Hex]; [done|]. by rewrite Hr.
  - unfold setitem.
    destruct (proj1 (np_index_out_of_range (nrows A) idx)) as [e ->]; [|by exists e].
    unfold in_range in Hout. lia.
Qed.

(** The failure of the loop is that of the first index that numpy refuses. *)
Lemma fill_error l : ∀ A i e,
  well_shaped A → (i + length l ≤ ncols A)%nat → Forall fits_intp l →
  fill A i l = Raise e → e = IndexError.
Proof.
  induction l as [|idx l IH]; intros A i e HA Hi Hfit H; [done|].
  apply Forall_cons in Hfit as [Hidx Hfit].
  simpl in *. destruct (decide (in_range (nrows A) idx)) as [Hin|Hout].
  - destruct (setitem_spec A idx i 1 HA Hin) as (A1 & HA1 & Hsh & Hws & _); [lia|].
    rewrite HA1 in H. injection Hsh as Hr Hc. simpl in H.
    apply (IH A1 (S i)); [done|lia|done..].
  - unfold setitem in H.
    destruct (proj1 (np_index_out_of_range (nrows A) idx)) as [e' He'].
    { unfold in_range in Hout. lia. }
    rewrite He' in H. simpl in H. injection H as <-.
    by eapply np_index_error.
Qed.

Lemma zeros_well_shaped n m : well_shaped (zeros n m).
Proof.
  split; simpl; [apply length_replicate|].
  apply Forall_replicate, length_replicate.
Qed.

Lemma zeros_entry n m r c :
  (r < n)%nat → (c < m)%nat → entry (zeros n m) r c = Some 0.
Proof.
  intros Hr Hc. unfold entry, zeros; simpl.
  rewrite lookup_replicate_2 by done. simpl. by apply lookup_replicate_2.
Qed.

(** The incidence matrix of one pool whose indices numpy accepts. *)
Lemma incidence_spec n l :
  Forall (in_range n) l →
  ∃ A, incidence n l = Ok A ∧ shape A = (n, length l) ∧ well_shaped A ∧
    ∀ i idx r, l !! i = Some idx → (r < n)%nat →
      entry A r i = Some (if decide (r = resolve n idx) then 1 else 0).
Proof.
  intros Hl. unfold incidence.
  destruct (fill_spec l (zeros n (length l)) 0) as (A & HA & Hsh & Hws & Hent);
    [apply zeros_well_shaped|done|simpl; lia|].
  exists A. repeat split; try done; try apply Hws.
  intros i idx r Hi Hr. rewrite Hent. rewrite Nat.sub_0_r, Hi. simpl.
  apply lookup_lt_Some in Hi as Hlt.
  case_decide as Hd.
  - rewrite decide_True by tauto. done.
  - rewrite decide_False by (intros ->; apply Hd; split; [lia|done]).
    by apply zeros_entry.
Qed.

Lemma incidence_raises n l :
  Exists (λ idx, ¬ in_range n idx) l → fails (incidence n l).
Proof.
  intros Hex. apply fill_raises; [apply zeros_well_shaped|simpl; lia|done].
Qed.

Lemma incidence_error n l e :
  Forall fits_intp l → incidence n l = Raise e → e = IndexError.
Proof.
  intros Hfit H.
  eapply fill_error; [apply zeros_well_shaped| |done..]. simpl; lia.
Qed.

Lemma incidence_fails_inv n l :
  fails (incidence n l) → Exists (λ idx, ¬ in_range n idx) l.
Proof.
  intros [e He]. destruct (decide (Forall (in_range n) l)) as [Hall|Hnot].
  - destruct (incidence_spec n l Hall) as (A & HA & _). congruence.
  - apply not_Forall_Exists in Hnot; [done|intros ?; unfold in_range; apply _].
Qed.

Lemma build_A_lookup n ls A k l :
  build_A n ls = Ok A → ls !! k = Some l →
  Forall (in_range n) l ∧ ∃ A_k, A !! k = Some A_k ∧ incidence n l = Ok A_k.
Proof.
  intros HA Hk. destruct (traverse_Ok_lookup _ _ _ _ _ HA Hk) as (A_k & HAk & Hinc).
  split; [|eauto].
  destruct (decide (Forall (in_range n) l)) as [|Hnot]; [done|].
  apply not_Forall_Exists in Hnot; [|intros ?; unfold in_range; apply _].
  apply incidence_raises in Hnot as [e He]. congruence.
Qed.

(** C4 (incidence correctness).  When every index that a pool lists lies in
    [[0, n)], the index mapper succeeds and gives one matrix per pool; the
    matrix of pool [k] has shape [(n, arity_k)], and in its column [i] the
    entry of row [local_indices[k][i]] is 1 and every other entry is 0: one
    non-zero entry per column, of value 1, at the declared global index.
    The indices of a pool need not be distinct for this. *)
Theorem incidence_correct (n : nat) (local_indices : list (list Z)) :
  Forall (Forall (λ idx, (0 ≤ idx < Z.of_nat n)%Z)) local_indices →
  ∃ A, build_A n local_indices = Ok A ∧ length A = length local_indices ∧
    ∀ k l, local_indices !! k = Some l →
      ∃ A_k, A !! k = Some A_k ∧ shape A_k = (n, length l) ∧ well_shaped A_k ∧
        ∀ i idx, l !! i = Some idx → ∀ r, (r < n)%nat →
          entry A_k r i = Some (if decide (Z.of_nat r = idx) then 1 else 0).
Proof.
  intros Hvalid.
  assert (Hin : Forall (Forall (in_range n)) local_indices).
  { eapply Forall_impl; [exact Hvalid|]. intros l Hl.
    eapply Forall_impl; [exact Hl|]. unfold in_range. simpl. lia. }
  destruct (traverse_all_Ok (incidence n) local_indices) as [A HA].
  { eapply Forall_impl; [exact Hin|]. intros l Hl.
    destruct (incidence_spec n l Hl) as (A & ? & _). by exists A. }
  exists A. split; [done|]. split; [by eapply traverse_Ok_length|].
  intros k l Hk. destruct (build_A_lookup _ _ _ _ _ HA Hk) as [Hl (A_k & HAk & Hinc)].
  exists A_k. split; [done|].
  destruct (incidence_spec n l Hl) as (A' & HA' & Hsh & Hws & Hent).
  assert (A' = A_k) as -> by congruence.
  repeat split; try done; try apply Hws.
  intros i idx Hi r Hr. rewrite (Hent i idx r Hi Hr). f_equal.
  assert (0 ≤ idx)%Z as Hpos.
  { eapply (proj1 (Forall_lookup _ _)) in Hvalid; [|exact Hk].
    eapply (proj1 (Forall_lookup _ _)) in Hvalid; [|exact Hi]. simpl in Hvalid. lia. }
  unfold resolve. rewrite (decide_True (P := (0 ≤ idx)%Z)) by done.
  repeat case_decide; try done; lia.
Qed.

Lemma incidence_correct_witness :
  ∃ A, build_A 4 test_local_indices = Ok A ∧ length A = 5%nat.
Proof.
  destruct (incidence_correct 4 test_local_indices) as (A & HA & Hlen & _).
  - unfold test_local_indices. repeat constructor; lia.
  - exists A. split; [exact HA | exact Hlen].
Defined.

(** C5, as the claim states it, fails: the index [-1] is outside [[0, 4)],
    yet the index mapper accepts it and puts the 1 in row 3. *)
Lemma negative_index_wraps :
  ¬ (0 ≤ -1 < 4)%Z ∧
  build_A 4 [[-1]%Z] = Ok [Matrix 4 1 [[0]; [0]; [0]; [1]]].
Proof. split; [lia | reflexivity]. Qed.

(** C5 (amended).  The index mapper fails exactly when some pool lists an
    index [idx] with [idx < -n] or [n <= idx].  When every listed index fits
    a signed 64-bit integer, the failure is an [IndexError] and nothing
    else (an index beyond that range is refused by the conversion to
    numpy's index type, with [OverflowError]).  A negative index in
    [[-n, 0)] is accepted: numpy counts it from the end, and the 1 of that
    column goes to row [idx + n]. *)
Theorem index_mapper_failure (n : nat) (local_indices : list (list Z)) :
  (fails (build_A n local_indices) ↔
     ∃ l idx, l ∈ local_indices ∧ idx ∈ l ∧ (idx < - Z.of_nat n ∨ Z.of_nat n ≤ idx)%Z) ∧
  (Forall (Forall fits_intp) local_indices →
   ∀ e, build_A n local_indices = Raise e → e = IndexError) ∧
  (∀ A k l i idx,
     build_A n local_indices = Ok A → local_indices !! k = Some l →
     l !! i = Some idx → (idx < 0)%Z →
     ∃ A_k, A !! k = Some A_k ∧ entry A_k (Z.to_nat (idx + Z.of_nat n)) i = Some 1).
Proof.
  split; [split|split].
  - intros [e H]. apply traverse_Raise in H as (l & Hl & Hinc). exists l.
    assert (Hex : fails (incidence n l)) by by exists e.
    apply incidence_fails_inv, Exists_exists in Hex as (idx & Hidx & Hout).
    exists idx. repeat split; try done.
    unfold in_range in Hout. lia.
  - intros (l & idx & Hl & Hidx & Hout).
    apply (traverse_one_fails _ _ l); [done|].
    apply incidence_raises, Exists_exists. exists idx. split; [done|].
    unfold in_range. lia.
  - intros Hfit e H. apply traverse_Raise in H as (l & Hl & Hinc).
    eapply incidence_error; [|exact Hinc].
    by eapply (proj1 (Forall_forall _ _)) in Hfit.
  - intros A k l i idx HA Hk Hi Hneg.
    destruct (build_A_lookup _ _ _ _ _ HA Hk) as [Hl (A_k & HAk & Hinc)].
    exists A_k. split; [done|].
    destruct (incidence_spec n l Hl) as (A' & HA' & _ & _ & Hent).
    assert (A' = A_k) as -> by congruence.
    eapply (proj1 (Forall_lookup _ _)) in Hl; [|exact Hi].
    destruct (np_index_in_range n idx Hl) as [_ Hlt].
    replace (Z.to_nat (idx + Z.of_nat n)) with (resolve n idx)
      by (unfold resolve; by rewrite decide_False by lia).
    rewrite (Hent i idx _ Hi Hlt). by rewrite decide_True by done.
Qed.

Lemma index_mapper_failure_witness :
  fails (build_A 4 [[0; 1]%Z; [2; 7]%Z]) ∧
  fails (build_A 4 [[-5]%Z]) ∧
  (Forall (Forall fits_intp) [[0; 1]%Z; [2; 7]%Z] ∧
   ∀ e, build_A 4 [[0; 1]%Z; [2; 7]%Z] = Raise e → e = IndexError) ∧
  ∃ A_k, [Matrix 4 1 [[0]; [0]; [0]; [1]]] !! 0%nat = Some A_k ∧
         entry A_k (Z.to_nat (-1 + 4)) 0 = Some 1.
Proof.
  assert (Hfit : Forall (Forall fits_intp) [[0; 1]%Z; [2; 7]%Z]).
  { repeat apply List.Forall_cons; try apply List.Forall_nil;
      unfold fits_intp; lia. }
  split; [|split; [|split; [split|]]].
  - apply (proj1 (index_mapper_failure 4 [[0; 1]%Z; [2; 7]%Z])).
    exists [2; 7]%Z, 7%Z. repeat split.
    + apply list_elem_of_further, list_elem_of_here.
    + apply list_elem_of_further, list_elem_of_here.
    + right. simpl. lia.
  - apply (proj1 (index_mapper_failure 4 [[-5]%Z])).
    exists [-5]%Z, (-5)%Z. repeat split.
    + apply list_elem_of_here.
    + apply list_elem_of_here.
    + left. simpl. lia.
  - exact Hfit.
  - exact (proj1 (proj2 (index_mapper_failure 4 [[0; 1]%Z; [2; 7]%Z])) Hfit).
  - apply (proj2 (proj2 (index_mapper_failure 4 [[-1]%Z])) _ 0%nat [-1]%Z 0%nat (-1)%Z).
    + reflexivity.
    + reflexivity.
    + reflexivity.
    + lia.
Defined.

(** An index that does not fit the index type is refused in the conversion. *)
Example index_beyond_intp_overflows :
  build_A 4 [[0%Z; (2 ^ 63)%Z]] = Raise OverflowError.
Proof. reflexivity. Qed.

(** * Trade variables *)

Lemma enumerate_lookup {A} (xs : list A) k x :
  xs !! k = Some x → enumerate xs !! k = Some (k, x).
Proof.
  intros Hk. unfold enumerate. apply lookup_zip_with_Some.
  exists k, x. repeat split; [|done].
  apply lookup_lt_Some in Hk. by rewrite lookup_seq_lt.
Qed.

Lemma enumerate_length {A} (xs : list A) : length (enumerate xs) = length xs.
Proof. unfold enumerate. rewrite length_zip, length_seq. lia. Qed.

Lemma variables_spec kd local_indices vs :
  variables kd local_indices = Ok vs →
  length vs = length local_indices ∧
  ∀ k l, local_indices !! k = Some l →
    vs !! k = Some (CpVar kd k (length l) true).
Proof.
  intros H. split.
  - apply traverse_Ok_length in H. by rewrite enumerate_length in H.
  - intros k l Hk. apply enumerate_lookup in Hk.
    destruct (traverse_Ok_lookup _ _ _ _ _ H Hk) as (v & Hv & Hcp).
    unfold cp_Variable in Hcp. by injection Hcp as <-.
Qed.

Lemma variables_lookup_inv kd local_indices vs k v :
  variables kd local_indices = Ok vs → vs !! k = Some v →
  ∃ l, local_indices !! k = Some l ∧ v = CpVar kd k (length l) true.
Proof.
  intros H Hv. destruct (variables_spec _ _ _ H) as [Hlen Hsp].
  destruct (local_indices !! k) as [l|] eqn:Hl.
  - specialize (Hsp k l Hl). exists l. split; [done|congruence].
  - apply lookup_ge_None in Hl. apply lookup_lt_Some in Hv. lia.
Qed.

Lemma variables_succeeds kd local_indices :
  succeeds (variables kd local_indices).
Proof.
  apply traverse_all_Ok, Forall_lookup. intros k [i l] Hk. by eexists.
Qed.

(** * What a successful run has built *)

Lemma cp_matmul_list_Ok c psi c' e :
  cp_matmul_list c psi = Ok (c', e) ↔
  psi = Some e ∧ c' = c ∧ shape_of e = Ok (Vec (length c)).
Proof.
  unfold cp_matmul_list. destruct psi as [e0|].
  - destruct (shape_of e0) as [s|err] eqn:Hs; simpl.
    + case_decide as Hd; split.
      * intros [= <- <-]. by rewrite Hs, Hd.
      * by intros ([= <-] & -> & _).
      * discriminate.
      * intros ([= <-] & _ & Hs'). congruence.
    + split; [discriminate|]. intros ([= <-] & _ & Hs'). congruence.
  - split; [discriminate|]. by intros ([=] & _).
Qed.

Lemma build_expressions_Ok gi li rs fs mv e :
  build_expressions gi li rs fs mv = Ok e →
  ∃ terms,
    build_A (length gi) li = Ok (e_A e) ∧
    variables Deposit li = Ok (e_deltas e) ∧
    variables Withdraw li = Ok (e_lambdas e) ∧
    traverse extraction_term (zip (e_A e) (zip (e_deltas e) (e_lambdas e))) = Ok terms ∧
    cp_sum_list terms = Ok (Some (e_psi e)) ∧
    shape_of (e_psi e) = Ok (Vec (length mv)) ∧
    build_new_reserves rs fs (e_deltas e) (e_lambdas e) = Ok (e_new_reserves e) ∧
    e_c e = mv.
Proof.
  unfold build_expressions. intros H.
  apply bind_Ok in H as (A & HA & H).
  apply bind_Ok in H as (ds & Hds & H).
  apply bind_Ok in H as (ls & Hls & H).
  apply bind_Ok in H as (terms & Hterms & H).
  apply bind_Ok in H as (psi0 & Hpsi0 & H).
  apply bind_Ok in H as ([c psi] & Hmm & H).
  apply bind_Ok in H as (nr & Hnr & H).
  injection H as <-. simpl.
  apply cp_matmul_list_Ok in Hmm as (-> & -> & Hshape).
  exists terms. repeat split; done.
Qed.

Lemma build_model_Ok gi li rs fs mv m :
  build_model gi li rs fs mv = Ok m →
  ∃ terms,
    build_A (length gi) li = Ok (m_A m) ∧
    variables Deposit li = Ok (m_deltas m) ∧
    variables Withdraw li = Ok (m_lambdas m) ∧
    traverse extraction_term (zip (m_A m) (zip (m_deltas m) (m_lambdas m))) = Ok terms ∧
    cp_sum_list terms = Ok (Some (m_psi m)) ∧
    shape_of (m_psi m) = Ok (Vec (length mv)) ∧
    build_new_reserves rs fs (m_deltas m) (m_lambdas m) = Ok (m_new_reserves m) ∧
    build_cons (m_new_reserves m) rs (m_psi m) = Ok (prob_constraints (m_prob m)) ∧
    prob_objective (m_prob m) = Maximize mv (m_psi m).
Proof.
  unfold build_model. intros H.
  apply bind_Ok in H as (e & He & H).
  apply bind_Ok in H as (cons & Hcons & H).
  injection H as <-. simpl.
  destruct (build_expressions_Ok _ _ _ _ _ _ He)
    as (terms & ? & ? & ? & ? & ? & ? & ? & ->).
  exists terms. repeat split; done.
Qed.


(** A failure of the model construction is the failure of the call,
    whatever the solver: the solver is not reached. *)
Lemma solve_arbitrage_Raise {Status} (solve : problem → Status) gi li rs fs mv e :
  solve_arbitrage solve gi li rs fs mv = Raise e ↔ build_model gi li rs fs mv = Raise e.
Proof.
  unfold solve_arbitrage. rewrite bind_Raise. split.
  - intros [H | (m & _ & [=])]. done.
  - by left.
Qed.



(** * Objective builder *)

Lemma checked_Ok e e' : checked e = Ok e' ↔ e' = e ∧ succeeds (shape_of e).
Proof.
  unfold checked, succeeds. destruct (shape_of e) as [s|err]; simpl; split.
  - intros [= <-]. eauto.
  - by intros [-> _].
  - discriminate.
  - by intros [_ [s [=]]].
Qed.

Lemma checked_shape e s : shape_of e = Ok s → checked e = Ok e.
Proof. intros H. apply checked_Ok. split; [done | by exists s]. Qed.

Lemma foldl_checked_Raise err ts :
  foldl (λ acc u, a ← acc; checked (Add a u)) (Raise err) ts = Raise err.
Proof. induction ts as [|t ts IH]; simpl; done. Qed.

Lemma foldl_checked_Ok ts : ∀ e e',
  foldl (λ acc u, a ← acc; checked (Add a u)) (Ok e) ts = Ok e' →
  e' = foldl Add e ts.
Proof.
  induction ts as [|t ts IH]; intros e e' H; simpl in *.
  - by injection H as <-.
  - destruct (checked (Add e t)) as [a|err] eqn:Hc.
    + apply checked_Ok in Hc as [-> _]. by apply IH.
    + by rewrite foldl_checked_Raise in H.
Qed.

Lemma cp_sum_list_Ok terms psi :
  cp_sum_list terms = Ok (Some psi) → terms ≠ [] ∧ psi = foldl Add (Scalar 0) terms.
Proof.
  destruct terms as [|t ts]; simpl; [done|]. intros H.
  apply bind_Ok in H as (e & He & H). apply bind_Ok in H as (e' & He' & [= <-]).
  apply checked_Ok in He as [-> _]. split; [done|]. by apply foldl_checked_Ok.
Qed.

Lemma cp_sum_list_empty terms : cp_sum_list terms = Ok None ↔ terms = [].
Proof.
  destruct terms as [|t ts]; simpl; [done|]. split; [|done]. intros H.
  apply bind_Ok in H as (e & He & H). by apply bind_Ok in H as (e' & He' & [=]).
Qed.

Lemma extraction_term_Ok t e :
  extraction_term t = Ok e → e = term_of t ∧ shape_of e = Ok (Vec (nrows t.1)).
Proof.
  destruct t as [A_i [D L]]. unfold extraction_term. intros H.
  apply bind_Ok in H as (d & Hd & H). apply checked_Ok in Hd as [-> _].
  apply checked_Ok in H as [-> [s Hs]]. split; [done|].
  simpl in *. apply bind_Ok in Hs as (s' & Hs' & Hs). rewrite Hs'. simpl.
  by case_decide.
Qed.

Lemma extraction_terms_Ok ts terms :
  traverse extraction_term ts = Ok terms → terms = term_of <$> ts.
Proof.
  revert terms; induction ts as [|t ts IH]; intros terms H; simpl in H.
  - by injection H as <-.
  - inv_ok H. injection H as <-. simpl. f_equal; [|by apply IH].
    by eapply extraction_term_Ok.
Qed.

Lemma shape_of_sum n ts : ∀ e s,
  shape_of e = Ok s → (s = Sc ∨ s = Vec n) → ts ≠ [] ∨ s = Vec n →
  Forall (λ t, shape_of t = Ok (Vec n)) ts →
  shape_of (foldl Add e ts) = Ok (Vec n).
Proof.
  induction ts as [|t ts IH]; intros e s He Hs Hne Hts; simpl.
  - destruct Hne as [? | ->]; done.
  - apply Forall_cons in Hts as [Ht Hts].
    eapply (IH _ (Vec n)); [|by right|by right|done].
    simpl. rewrite He, Ht. simpl. destruct Hs as [-> | ->]; simpl; [done|].
    by rewrite decide_True.
Qed.

Lemma bcast_same_length f u v :
  length u = length v → bcast f u v = zip_with f u v.
Proof.
  destruct u as [|a [|a' u]], v as [|b [|b' v]]; simpl; try done.
Qed.

Lemma eval_sum ρ n ts : ∀ e,
  length (eval ρ e) = n → Forall (λ t, length (eval ρ t) = n) ts →
  eval ρ (foldl Add e ts) = foldl (zip_with Rplus) (eval ρ e) (eval ρ <$> ts).
Proof.
  induction ts as [|t ts IH]; intros e He Hts; simpl; [done|].
  apply Forall_cons in Hts as [Ht Hts].
  rewrite IH; [|simpl|done].
  - simpl. by rewrite bcast_same_length by congruence.
  - rewrite bcast_same_length by congruence. rewrite length_zip_with. lia.
Qed.

Lemma eval_sum_from_zero ρ n t ts :
  Forall (λ t, length (eval ρ t) = n) (t :: ts) →
  eval ρ (foldl Add (Scalar 0) (t :: ts)) = vsum n (eval ρ <$> (t :: ts)).
Proof.
  intros Hts. apply Forall_cons in Hts as [Ht Hts]. unfold vsum. simpl.
  rewrite (eval_sum ρ n); [|simpl|done].
  - f_equal. simpl. symmetry. apply zip_with_replicate_l. lia.
  - by rewrite length_map.
Qed.

(** * Constraint list *)

Lemma getitem_Ok {A} (xs : list A) k x : getitem xs k = Ok x ↔ xs !! k = Some x.
Proof. unfold getitem. destruct (xs !! k); split; congruence. Qed.

Lemma getitem_Raise {A} (xs : list A) k e :
  getitem xs k = Raise e ↔ e = IndexError ∧ (length xs ≤ k)%nat.
Proof.
  unfold getitem. destruct (xs !! k) as [x|] eqn:Hk; split.
  - discriminate.
  - intros [_ Hle]. apply lookup_lt_Some in Hk. lia.
  - intros [= <-]. split; [done|]. by apply lookup_ge_None.
  - by intros [-> _].
Qed.

Lemma cp_geo_mean_Ok s p :
  cp_geo_mean s p = Ok () ↔
  ∃ k, s = Vec k ∧ length (weights p k) = k ∧ (0 < sum_list (weights p k))%nat.
Proof.
  unfold cp_geo_mean. destruct s as [|k]; split.
  - discriminate.
  - by intros (k & [=] & _).
  - case_decide as Hd; [|discriminate]. intros _. exists k. by destruct Hd.
  - intros (k' & [= <-] & H1 & H2). by rewrite decide_True.
Qed.

Lemma geo_mean_line_Ok nr rs k p c :
  geo_mean_line nr rs k p = Ok c →
  ∃ x r, nr !! k = Some x ∧ rs !! k = Some r ∧ c = GeoMeanGe x p r.
Proof.
  unfold geo_mean_line. intros H.
  apply bind_Ok in H as (x & Hx & H). apply bind_Ok in H as (s & Hs & H).
  apply bind_Ok in H as (u & Hu & H). apply bind_Ok in H as (r & Hr & H).
  apply bind_Ok in H as (u' & Hu' & [= <-]).
  apply getitem_Ok in Hx, Hr. eauto.
Qed.

Lemma sum_line_Ok nr rs k c :
  sum_line nr rs k = Ok c → ∃ x r, nr !! k = Some x ∧ rs !! k = Some r ∧ c = SumGe x r.
Proof.
  unfold sum_line. intros H.
  apply bind_Ok in H as (x & Hx & H). apply bind_Ok in H as (r & Hr & [= <-]).
  apply getitem_Ok in Hx, Hr. eauto.
Qed.

Lemma nonneg_line_Ok nr k c :
  nonneg_line nr k = Ok c → ∃ x, nr !! k = Some x ∧ c = NonNeg x.
Proof.
  unfold nonneg_line. intros H. apply bind_Ok in H as (x & Hx & [= <-]).
  apply getitem_Ok in Hx. eauto.
Qed.

(** The constraint list, spelled out. *)
Lemma build_cons_Ok nr rs psi cons :
  build_cons nr rs psi = Ok cons →
  ∃ x0 x1 x2 x3 x4 r0 r1 r2 r3 r4,
    nr !! 0%nat = Some x0 ∧ nr !! 1%nat = Some x1 ∧ nr !! 2%nat = Some x2 ∧
    nr !! 3%nat = Some x3 ∧ nr !! 4%nat = Some x4 ∧
    rs !! 0%nat = Some r0 ∧ rs !! 1%nat = Some r1 ∧ rs !! 2%nat = Some r2 ∧
    rs !! 3%nat = Some r3 ∧ rs !! 4%nat = Some r4 ∧
    cons = [GeoMeanGe x0 (Some [4; 3; 2; 1]%nat) r0;
            GeoMeanGe x1 None r1; GeoMeanGe x2 None r2; GeoMeanGe x3 None r3;
            SumGe x4 r4; NonNeg x4; NonNeg psi].
Proof.
  unfold build_cons. intros H.
  apply bind_Ok in H as (c0 & H0 & H). apply bind_Ok in H as (c1 & H1 & H).
  apply bind_Ok in H as (c2 & H2 & H). apply bind_Ok in H as (c3 & H3 & H).
  apply bind_Ok in H as (c4 & H4 & H). apply bind_Ok in H as (c5 & H5 & [= <-]).
  apply geo_mean_line_Ok in H0 as (x0 & r0 & ? & ? & ->).
  apply geo_mean_line_Ok in H1 as (x1 & r1 & ? & ? & ->).
  apply geo_mean_line_Ok in H2 as (x2 & r2 & ? & ? & ->).
  apply geo_mean_line_Ok in H3 as (x3 & r3 & ? & ? & ->).
  apply sum_line_Ok in H4 as (x4 & r4 & ? & ? & ->).
  apply nonneg_line_Ok in H5 as (x4' & ? & ->).
  assert (x4' = x4) as -> by congruence.
  exists x0, x1, x2, x3, x4, r0, r1, r2, r3, r4. repeat split; done.
Qed.

(** The pools as the comprehensions see them: matrix, deposit variable and
    withdrawal variable, position by position. *)
Lemma pools_lookup gi li rs fs mv m k l :
  build_model gi li rs fs mv = Ok m → li !! k = Some l →
  ∃ A_k, zip (m_A m) (zip (m_deltas m) (m_lambdas m)) !! k =
           Some (A_k, (CpVar Deposit k (length l) true, CpVar Withdraw k (length l) true)) ∧
         m_A m !! k = Some A_k ∧
         m_deltas m !! k = Some (CpVar Deposit k (length l) true) ∧
         m_lambdas m !! k = Some (CpVar Withdraw k (length l) true) ∧
         shape A_k = (length gi, length l) ∧ well_shaped A_k.
Proof.
  intros Hm Hk.
  destruct (build_model_Ok _ _ _ _ _ _ Hm) as (terms & HA & Hds & Hls & _).
  destruct (variables_spec _ _ _ Hds) as [_ Hd].
  destruct (variables_spec _ _ _ Hls) as [_ Hl].
  pose proof (Hd k l Hk) as HD. pose proof (Hl k l Hk) as HL.
  destruct (build_A_lookup _ _ _ _ _ HA Hk) as [Hin (A_k & HAk & Hinc)].
  destruct (incidence_spec _ l Hin) as (A' & HA' & Hsh & Hws & _).
  assert (A' = A_k) as -> by congruence.
  exists A_k. repeat split; try done; try apply Hws.
  apply lookup_zip_with_Some. eexists _, _. repeat split; [done|].
  apply lookup_zip_with_Some. eexists _, _. repeat split; done.
Qed.

Lemma pools_length gi li rs fs mv m :
  build_model gi li rs fs mv = Ok m →
  length (m_A m) = length li ∧ length (m_deltas m) = length li ∧
  length (m_lambdas m) = length li ∧
  length (zip (m_A m) (zip (m_deltas m) (m_lambdas m))) = length li.
Proof.
  intros Hm.
  destruct (build_model_Ok _ _ _ _ _ _ Hm) as (terms & HA & Hds & Hls & _).
  apply traverse_Ok_length in HA.
  destruct (variables_spec _ _ _ Hds) as [Hd _].
  destruct (variables_spec _ _ _ Hls) as [Hl _].
  repeat split; try done. rewrite !length_zip. lia.
Qed.

Lemma pools_lookup_inv gi li rs fs mv m k t :
  build_model gi li rs fs mv = Ok m →
  zip (m_A m) (zip (m_deltas m) (m_lambdas m)) !! k = Some t →
  ∃ l, li !! k = Some l ∧
       t.2 = (CpVar Deposit k (length l) true, CpVar Withdraw k (length l) true) ∧
       shape t.1 = (length gi, length l) ∧ well_shaped t.1.
Proof.
  intros Hm Ht. destruct (pools_length _ _ _ _ _ _ Hm) as (_ & _ & _ & Hlen).
  destruct (li !! k) as [l|] eqn:Hl.
  - destruct (pools_lookup _ _ _ _ _ _ _ _ Hm Hl) as (A_k & Hz & _ & _ & _ & Hsh & Hws).
    rewrite Hz in Ht. injection Ht as <-. exists l. done.
  - apply lookup_ge_None in Hl. apply lookup_lt_Some in Ht. lia.
Qed.

Lemma vsum_length n vs :
  Forall (λ v, length v = n) vs → length (vsum n vs) = n.
Proof.
  unfold vsum. generalize (replicate n 0) (length_replicate n 0).
  induction vs as [|v vs IH]; intros acc Hacc Hvs; simpl; [done|].
  apply Forall_cons in Hvs as [Hv Hvs]. apply IH; [|done].
  rewrite length_zip_with. lia.
Qed.

Lemma terms_shape gi li rs fs mv m :
  build_model gi li rs fs mv = Ok m →
  Forall (λ t, shape_of (term_of t) = Ok (Vec (length gi)) ∧
               ∀ ρ, length (eval ρ (term_of t)) = length gi)
    (zip (m_A m) (zip (m_deltas m) (m_lambdas m))).
Proof.
  intros Hm. apply Forall_lookup. intros k t Ht.
  destruct (pools_lookup_inv _ _ _ _ _ _ _ _ Hm Ht) as (l & Hl & Hvars & Hsh & Hws).
  destruct t as [A_k [D L]]. simpl in *. injection Hvars as -> ->.
  injection Hsh as Hr Hc. simpl. split.
  - rewrite decide_True by done. simpl. rewrite decide_True by (by rewrite Hc).
    by rewrite Hr.
  - intros ρ. rewrite length_map. destruct Hws as [-> _]. done.
Qed.

Lemma psi_is_sum gi li rs fs mv m :
  build_model gi li rs fs mv = Ok m →
  m_psi m = foldl Add (Scalar 0)
              (term_of <$> zip (m_A m) (zip (m_deltas m) (m_lambdas m))) ∧
  term_of <$> zip (m_A m) (zip (m_deltas m) (m_lambdas m)) ≠ [].
Proof.
  intros Hm.
  destruct (build_model_Ok _ _ _ _ _ _ Hm) as (terms & _ & _ & _ & Hterms & Hpsi & _).
  apply extraction_terms_Ok in Hterms as ->.
  apply cp_sum_list_Ok in Hpsi as [Hne Hpsi]. done.
Qed.

Lemma eval_psi gi li rs fs mv m ρ :
  build_model gi li rs fs mv = Ok m → (∀ x, length (ρ x) = vsize x) →
  eval ρ (m_psi m)
  = vsum (length gi) (extracted ρ <$> zip (m_A m) (zip (m_deltas m) (m_lambdas m))).
Proof.
  intros Hm Hρ. destruct (psi_is_sum _ _ _ _ _ _ Hm) as [-> Hne].
  pose proof (terms_shape _ _ _ _ _ _ Hm) as Hts.
  set (pools := zip (m_A m) (zip (m_deltas m) (m_lambdas m))) in *.
  destruct (term_of <$> pools) as [|t ts] eqn:Hts'; [done|].
  rewrite (eval_sum_from_zero ρ (length gi)).
  - rewrite <- Hts', <- list_fmap_compose. f_equal.
    apply list_eq. intros k. rewrite !list_lookup_fmap.
    destruct (pools !! k) as [[A_k [D L]]|] eqn:Hk; [|done]. simpl. f_equal.
    destruct (pools_lookup_inv _ _ _ _ _ _ _ _ Hm Hk) as (l & _ & Hvars & _).
    simpl in Hvars. injection Hvars as -> ->.
    rewrite bcast_same_length; [done|]. by rewrite !Hρ.
  - rewrite <- Hts'. apply Forall_fmap.
    eapply Forall_impl; [exact Hts|]. intros t' [_ Hlen]. apply Hlen.
Qed.

(** C3 (objective).  In a model that was built, [psi] is the sum, started
    from 0, of the terms [A_l @ (lambdas_l - deltas_l)], one per pool, and
    has shape [(n,)]; the objective is [Maximize(market_value @ psi)]; and
    [psi >= 0] is one of the constraints.  Under any assignment that gives
    each variable a value of its size, [psi] evaluates to the sum over the
    pools of the incidence matrix applied to withdrawal minus deposit. *)
Theorem objective_is_value_of_psi gi li rs fs mv m :
  build_model gi li rs fs mv = Ok m →
  let pools := zip (m_A m) (zip (m_deltas m) (m_lambdas m)) in
  length pools = length li ∧
  m_psi m = foldl Add (Scalar 0) (term_of <$> pools) ∧
  shape_of (m_psi m) = Ok (Vec (length gi)) ∧
  prob_objective (m_prob m) = Maximize mv (m_psi m) ∧
  NonNeg (m_psi m) ∈ prob_constraints (m_prob m) ∧
  ∀ ρ, (∀ x, length (ρ x) = vsize x) →
    eval ρ (m_psi m) = vsum (length gi) (extracted ρ <$> pools) ∧
    length (eval ρ (m_psi m)) = length gi ∧
    objective_value ρ (prob_objective (m_prob m)) =
      dot mv (vsum (length gi) (extracted ρ <$> pools)).
Proof.
  intros Hm pools.
  destruct (build_model_Ok _ _ _ _ _ _ Hm)
    as (terms & _ & _ & _ & _ & _ & _ & _ & Hcons & Hobj).
  destruct (psi_is_sum _ _ _ _ _ _ Hm) as [Hpsi Hne]. fold pools in Hpsi, Hne.
  pose proof (terms_shape _ _ _ _ _ _ Hm) as Hts. fold pools in Hts.
  split; [by eapply pools_length|]. split; [done|]. split.
  { rewrite Hpsi. apply (shape_of_sum _ _ _ Sc); [done|by left|by left|].
    apply Forall_fmap. eapply Forall_impl; [exact Hts|]. by intros t [? _]. }
  split; [done|]. split.
  - destruct (build_cons_Ok _ _ _ _ Hcons)
      as (x0 & x1 & x2 & x3 & x4 & r0 & r1 & r2 & r3 & r4 & Hrest).
    destruct Hrest as (_ & _ & _ & _ & _ & _ & _ & _ & _ & _ & ->).
    do 6 apply list_elem_of_further. apply list_elem_of_here.
  - intros ρ Hρ. pose proof (eval_psi _ _ _ _ _ _ ρ Hm Hρ) as Heval.
    fold pools in Heval. split; [done|]. split.
    + rewrite Heval. apply vsum_length, Forall_fmap, Forall_lookup.
      intros k [A_k [D L]] Hk. simpl. rewrite length_map.
      destruct (pools_lookup_inv _ _ _ _ _ _ _ _ Hm Hk) as (l & _ & _ & Hsh & Hws).
      simpl in *. injection Hsh as Hr _. destruct Hws as [-> _]. done.
    + rewrite Hobj. simpl. by rewrite Heval.
Qed.

Lemma objective_is_value_of_psi_witness :
  ∃ m, build_model test_global_indices test_local_indices test_reserves
         test_fees test_market_value = Ok m ∧
       shape_of (m_psi m) = Ok (Vec 4) ∧
       prob_objective (m_prob m) = Maximize test_market_value (m_psi m) ∧
       NonNeg (m_psi m) ∈ prob_constraints (m_prob m).
Proof.
  destruct test_builds as [m Hm]. exists m. split; [exact Hm|].
  destruct (objective_is_value_of_psi _ _ _ _ _ _ Hm) as (_ & _ & Hsh & Hobj & Hin & _).
  split; [exact Hsh|]. split; [exact Hobj | exact Hin].
Defined.

(** * Post-trade reserves *)

Lemma post_trade_Ok R_ gamma_i D L e :
  post_trade (R_, (gamma_i, (D, L))) = Ok e →
  e = post_trade_expr R_ gamma_i D L ∧ succeeds (shape_of e).
Proof.
  unfold post_trade. intros H. apply bind_Ok in H as (a & Ha & H).
  apply checked_Ok in Ha as [-> _]. apply checked_Ok in H as [-> Hs]. done.
Qed.

Lemma new_reserves_lookup gi li rs fs mv m k l R_ gamma_i :
  build_model gi li rs fs mv = Ok m →
  li !! k = Some l → rs !! k = Some R_ → fs !! k = Some gamma_i →
  m_new_reserves m !! k =
    Some (post_trade_expr R_ gamma_i (CpVar Deposit k (length l) true)
                                     (CpVar Withdraw k (length l) true)).
Proof.
  intros Hm Hl HR Hg.
  destruct (build_model_Ok _ _ _ _ _ _ Hm) as (terms & _ & _ & _ & _ & _ & _ & Hnr & _).
  destruct (pools_lookup _ _ _ _ _ _ _ _ Hm Hl) as (A_k & _ & _ & HD & HL & _).
  unfold build_new_reserves in Hnr.
  destruct (traverse_Ok_lookup _ _ _ k
    (R_, (gamma_i, (CpVar Deposit k (length l) true, CpVar Withdraw k (length l) true)))
    Hnr) as (e & He & Hpt).
  { apply lookup_zip_with_Some. eexists _, _. repeat split; [done|].
    apply lookup_zip_with_Some. eexists _, _. repeat split; [done|].
    apply lookup_zip_with_Some. eexists _, _. repeat split; done. }
  apply post_trade_Ok in Hpt as [-> _]. done.
Qed.

Lemma new_reserves_lookup_inv gi li rs fs mv m k e :
  build_model gi li rs fs mv = Ok m → m_new_reserves m !! k = Some e →
  ∃ l R_ gamma_i, li !! k = Some l ∧ rs !! k = Some R_ ∧ fs !! k = Some gamma_i ∧
    e = post_trade_expr R_ gamma_i (CpVar Deposit k (length l) true)
                                   (CpVar Withdraw k (length l) true) ∧
    succeeds (shape_of e).
Proof.
  intros Hm He.
  destruct (build_model_Ok _ _ _ _ _ _ Hm) as (terms & _ & _ & _ & _ & _ & _ & Hnr & _).
  destruct (pools_length _ _ _ _ _ _ Hm) as (_ & Hdl & Hll & _).
  unfold build_new_reserves in Hnr.
  pose proof (traverse_Ok_length _ _ _ Hnr) as Hlen.
  rewrite !length_zip in Hlen. apply lookup_lt_Some in He as Hk.
  destruct (li !! k) as [l|] eqn:Hl; [|apply lookup_ge_None in Hl; lia].
  destruct (rs !! k) as [R_|] eqn:HR; [|apply lookup_ge_None in HR; lia].
  destruct (fs !! k) as [g|] eqn:Hg; [|apply lookup_ge_None in Hg; lia].
  exists l, R_, g. repeat split; try done.
  - rewrite (new_reserves_lookup _ _ _ _ _ _ _ _ _ _ Hm Hl HR Hg) in He. congruence.
  - destruct (pools_lookup _ _ _ _ _ _ _ _ Hm Hl) as (A_k & _ & _ & HD & HL & _).
    destruct (traverse_Ok_lookup _ _ _ k
      (R_, (g, (CpVar Deposit k (length l) true, CpVar Withdraw k (length l) true)))
      Hnr) as (e' & He' & Hpt).
    { apply lookup_zip_with_Some. eexists _, _. repeat split; [done|].
      apply lookup_zip_with_Some. eexists _, _. repeat split; [done|].
      apply lookup_zip_with_Some. eexists _, _. repeat split; done. }
    apply post_trade_Ok in Hpt as [_ Hs]. congruence.
Qed.

Lemma eval_post_trade ρ R_ gamma_i D L :
  length (ρ D) = length R_ → length (ρ L) = length R_ →
  eval ρ (post_trade_expr R_ gamma_i D L) =
    zip_with Rminus (zip_with Rplus R_ (map (Rmult gamma_i) (ρ D))) (ρ L).
Proof.
  intros HD HL. simpl.
  rewrite (bcast_same_length Rplus) by (by rewrite length_map).
  rewrite bcast_same_length; [done|].
  rewrite length_zip_with, length_map. lia.
Qed.

(** C2 (post-trade reserves).  In a model that was built, the entry of
    [new_reserves] for pool [k] is the expression
    [reserves[k] + fees[k] * deltas[k] - lambdas[k]]; when the reserve
    vector is as long as the pool's index list, it evaluates entry by entry
    to [r + gamma * d - w].  Every constraint but [psi >= 0] constrains one
    of these expressions. *)
Theorem post_trade_reserves gi li rs fs mv m :
  build_model gi li rs fs mv = Ok m →
  (∀ k l R_ gamma_i, li !! k = Some l → rs !! k = Some R_ → fs !! k = Some gamma_i →
     ∃ D L e, m_deltas m !! k = Some D ∧ m_lambdas m !! k = Some L ∧
       m_new_reserves m !! k = Some e ∧
       e = Sub (Add (Const R_) (Scale gamma_i (Var D))) (Var L) ∧
       ∀ ρ, length R_ = length l → length (ρ D) = vsize D → length (ρ L) = vsize L →
         length (eval ρ e) = length l ∧
         ∀ j r d w, R_ !! j = Some r → ρ D !! j = Some d → ρ L !! j = Some w →
           eval ρ e !! j = Some (r + gamma_i * d - w)) ∧
  (∀ c, c ∈ prob_constraints (m_prob m) →
     c = NonNeg (m_psi m) ∨
     ∃ k, (k < 5)%nat ∧ m_new_reserves m !! k = Some (constraint_expr c)).
Proof.
  intros Hm. split.
  - intros k l R_ g Hl HR Hg.
    destruct (pools_lookup _ _ _ _ _ _ _ _ Hm Hl) as (A_k & _ & _ & HD & HL & _).
    eexists _, _, _. split; [exact HD|]. split; [exact HL|].
    split; [by eapply new_reserves_lookup|]. split; [done|].
    intros ρ HRl HρD HρL. simpl in HρD, HρL.
    fold (post_trade_expr R_ g (CpVar Deposit k (length l) true)
            (CpVar Withdraw k (length l) true)).
    rewrite eval_post_trade by congruence. split.
    + rewrite !length_zip_with, length_map. lia.
    + intros j r d w Hr Hd Hw. apply lookup_zip_with_Some. exists (r + g * d), w.
      repeat split; [|done]. apply lookup_zip_with_Some. exists r, (g * d).
      repeat split; [done|]. by rewrite list_lookup_fmap, Hd.
  - intros c Hc.
    destruct (build_model_Ok _ _ _ _ _ _ Hm) as (terms & _ & _ & _ & _ & _ & _ & _ & Hcons & _).
    destruct (build_cons_Ok _ _ _ _ Hcons)
      as (x0 & x1 & x2 & x3 & x4 & r0 & r1 & r2 & r3 & r4 & Hrest).
    destruct Hrest as (H0 & H1 & H2 & H3 & H4 & _ & _ & _ & _ & _ & Heq).
    rewrite Heq in Hc.
    repeat (apply elem_of_cons in Hc as [-> | Hc]);
      [right; exists 0%nat | right; exists 1%nat | right; exists 2%nat
      | right; exists 3%nat | right; exists 4%nat | right; exists 4%nat
      | by left | by apply elem_of_nil in Hc];
      (split; [lia | done]).
Qed.

Lemma post_trade_reserves_witness :
  ∃ m D L e,
    build_model test_global_indices test_local_indices test_reserves
      test_fees test_market_value = Ok m ∧
    m_deltas m !! 1%nat = Some D ∧ m_lambdas m !! 1%nat = Some L ∧
    m_new_reserves m !! 1%nat = Some e ∧
    e = Sub (Add (Const [10; 1]) (Scale 0.997 (Var D))) (Var L).
Proof.
  destruct test_builds as [m Hm].
  destruct (post_trade_reserves _ _ _ _ _ _ Hm) as [Hpools _].
  destruct (Hpools 1%nat [0; 1]%Z [10; 1] 0.997 eq_refl eq_refl eq_refl)
    as (D & L & e & HD & HL & He & Heq & _).
  exists m, D, L, e. split; [exact Hm|]. repeat split; assumption.
Defined.

(** * Which pool gets which invariant *)

Lemma vars_new_reserves gi li rs fs mv m j x v :
  build_model gi li rs fs mv = Ok m → m_new_reserves m !! j = Some x →
  v ∈ vars x → vpool v = j.
Proof.
  intros Hm Hx Hv.
  destruct (new_reserves_lookup_inv _ _ _ _ _ _ _ _ Hm Hx)
    as (l & R_ & g & _ & _ & _ & -> & _).
  simpl in Hv. apply elem_of_cons in Hv as [-> | Hv]; [done|].
  apply elem_of_cons in Hv as [-> | Hv]; [done|]. by apply elem_of_nil in Hv.
Qed.

Lemma mentions_new_reserves gi li rs fs mv m c k :
  build_model gi li rs fs mv = Ok m → mentions_pool k c →
  ∀ j, m_new_reserves m !! j = Some (constraint_expr c) → k = j.
Proof.
  intros Hm (v & Hv & <-) j Hx. by eapply vars_new_reserves.
Qed.

(** A constraint on the post-trade reserves of pool [j] does not mention
    another pool. *)
Ltac pool_clash Hm Hx Hmen :=
  exfalso; pose proof (mentions_new_reserves _ _ _ _ _ _ _ _ Hm Hmen _ Hx); lia.

(** C10 (invariant by position).  Whatever the input, a model that was
    built has these seven constraints, in this order: the weighted
    geometric mean with weights [4, 3, 2, 1] on pool 0, the plain geometric
    mean on pools 1, 2 and 3, the sum and the non-negativity of the
    post-trade reserves on pool 4, and [psi >= 0].  A pool at position 5 or
    beyond is mentioned by no constraint but [psi >= 0]; its variables are
    declared non-negative. *)
Theorem invariant_fixed_by_position gi li rs fs mv m :
  build_model gi li rs fs mv = Ok m →
  ∃ x0 x1 x2 x3 x4 r0 r1 r2 r3 r4,
    m_new_reserves m !! 0%nat = Some x0 ∧ m_new_reserves m !! 1%nat = Some x1 ∧
    m_new_reserves m !! 2%nat = Some x2 ∧ m_new_reserves m !! 3%nat = Some x3 ∧
    m_new_reserves m !! 4%nat = Some x4 ∧
    rs !! 0%nat = Some r0 ∧ rs !! 1%nat = Some r1 ∧ rs !! 2%nat = Some r2 ∧
    rs !! 3%nat = Some r3 ∧ rs !! 4%nat = Some r4 ∧
    prob_constraints (m_prob m) =
      [GeoMeanGe x0 (Some [4; 3; 2; 1]%nat) r0;
       GeoMeanGe x1 None r1; GeoMeanGe x2 None r2; GeoMeanGe x3 None r3;
       SumGe x4 r4; NonNeg x4; NonNeg (m_psi m)] ∧
    (∀ k c, (5 ≤ k)%nat → c ∈ prob_constraints (m_prob m) →
       mentions_pool k c → c = NonNeg (m_psi m)) ∧
    (∀ k D L, (5 ≤ k)%nat → m_deltas m !! k = Some D → m_lambdas m !! k = Some L →
       vnonneg D = true ∧ vnonneg L = true).
Proof.
  intros Hm.
  destruct (build_model_Ok _ _ _ _ _ _ Hm)
    as (terms & _ & Hds & Hls & _ & _ & _ & _ & Hcons & _).
  destruct (build_cons_Ok _ _ _ _ Hcons)
    as (x0 & x1 & x2 & x3 & x4 & r0 & r1 & r2 & r3 & r4 & Hrest).
  destruct Hrest as (H0 & H1 & H2 & H3 & H4 & ? & ? & ? & ? & ? & Heq).
  exists x0, x1, x2, x3, x4, r0, r1, r2, r3, r4.
  do 11 (split; [done|]). split.
  - intros k c Hk Hc Hmen. rewrite Heq in Hc.
    repeat (apply elem_of_cons in Hc as [-> | Hc]); try done;
      try (by apply elem_of_nil in Hc).
    + pool_clash Hm H0 Hmen.
    + pool_clash Hm H1 Hmen.
    + pool_clash Hm H2 Hmen.
    + pool_clash Hm H3 Hmen.
    + pool_clash Hm H4 Hmen.
    + pool_clash Hm H4 Hmen.
  - intros k D L _ HD HL.
    destruct (variables_lookup_inv _ _ _ _ _ Hds HD) as (l & _ & ->).
    destruct (variables_lookup_inv _ _ _ _ _ Hls HL) as (l' & _ & ->).
    done.
Qed.

(** C7 (constant sum).  In a model that was built, pool 4 is the
    constant-sum pool: its constraints are the sum of its post-trade
    reserves being at least the sum of its reserves, and its post-trade
    reserves being non-negative entry by entry.  No other constraint but
    [psi >= 0] mentions that pool, and no geometric-mean constraint does. *)
Theorem constant_sum_constraints gi li rs fs mv m :
  build_model gi li rs fs mv = Ok m →
  ∃ x4 r4,
    m_new_reserves m !! 4%nat = Some x4 ∧ rs !! 4%nat = Some r4 ∧
    prob_constraints (m_prob m) !! 4%nat = Some (SumGe x4 r4) ∧
    prob_constraints (m_prob m) !! 5%nat = Some (NonNeg x4) ∧
    (∀ ρ, sat ρ (SumGe x4 r4) ↔ Rsum r4 <= Rsum (eval ρ x4)) ∧
    (∀ ρ, sat ρ (NonNeg x4) ↔ Forall (λ a, 0 <= a) (eval ρ x4)) ∧
    (∀ c, c ∈ prob_constraints (m_prob m) → mentions_pool 4 c →
       c = SumGe x4 r4 ∨ c = NonNeg x4 ∨ c = NonNeg (m_psi m)) ∧
    (∀ c, c ∈ prob_constraints (m_prob m) → is_geo_mean c = true →
       ¬ mentions_pool 4 c).
Proof.
  intros Hm.
  destruct (build_model_Ok _ _ _ _ _ _ Hm)
    as (terms & _ & _ & _ & _ & _ & _ & _ & Hcons & _).
  destruct (build_cons_Ok _ _ _ _ Hcons)
    as (x0 & x1 & x2 & x3 & x4 & r0 & r1 & r2 & r3 & r4 & Hrest).
  destruct Hrest as (H0 & H1 & H2 & H3 & H4 & ? & ? & ? & ? & ? & Heq).
  exists x4, r4. rewrite Heq. do 6 (split; [done|]). split.
  - intros c Hc Hmen.
    repeat (apply elem_of_cons in Hc as [-> | Hc]); auto;
      try (by apply elem_of_nil in Hc).
    + pool_clash Hm H0 Hmen.
    + pool_clash Hm H1 Hmen.
    + pool_clash Hm H2 Hmen.
    + pool_clash Hm H3 Hmen.
  - intros c Hc Hgeo Hmen.
    repeat (apply elem_of_cons in Hc as [-> | Hc]); try done;
      try (by apply elem_of_nil in Hc).
    + pool_clash Hm H0 Hmen.
    + pool_clash Hm H1 Hmen.
    + pool_clash Hm H2 Hmen.
    + pool_clash Hm H3 Hmen.
Qed.

Lemma invariant_fixed_by_position_witness :
  ∃ m, build_model test_global_indices test_local_indices test_reserves
         test_fees test_market_value = Ok m ∧
       is_geo_mean <$> prob_constraints (m_prob m) =
         [true; true; true; true; false; false; false].
Proof.
  destruct test_builds as [m Hm]. exists m. split; [exact Hm|].
  destruct (invariant_fixed_by_position _ _ _ _ _ _ Hm)
    as (x0 & x1 & x2 & x3 & x4 & r0 & r1 & r2 & r3 & r4 & Hrest).
  destruct Hrest as (_ & _ & _ & _ & _ & _ & _ & _ & _ & _ & Heq & _).
  rewrite Heq. reflexivity.
Defined.

Lemma constant_sum_constraints_witness :
  ∃ m x4, build_model test_global_indices test_local_indices test_reserves
            test_fees test_market_value = Ok m ∧
          prob_constraints (m_prob m) !! 4%nat = Some (SumGe x4 [10; 10]) ∧
          prob_constraints (m_prob m) !! 5%nat = Some (NonNeg x4).
Proof.
  destruct test_builds as [m Hm].
  destruct (constant_sum_constraints _ _ _ _ _ _ Hm)
    as (x4 & r4 & _ & Hr4 & Hsum & Hnn & _).
  injection Hr4 as <-.
  exists m, x4. split; [exact Hm|]. split; [exact Hsum | exact Hnn].
Defined.

(** * When the construction succeeds *)

Lemma traverse_Ok_fmap {A B} (f : A → result B) (g : A → B) l :
  Forall (λ a, f a = Ok (g a)) l → traverse f l = Ok (g <$> l).
Proof.
  induction 1 as [|a l Ha _ IH]; simpl; [done|]. by rewrite Ha, IH.
Qed.

Lemma build_A_succeeds n li :
  Forall (Forall (in_range n)) li → succeeds (build_A n li).
Proof.
  intros H. apply traverse_all_Ok. eapply Forall_impl; [exact H|].
  intros l Hl. destruct (incidence_spec n l Hl) as (A & ? & _). by exists A.
Qed.

Lemma zipped_lookup_inv n li A ds ls k t :
  build_A n li = Ok A → variables Deposit li = Ok ds → variables Withdraw li = Ok ls →
  zip A (zip ds ls) !! k = Some t →
  ∃ l, li !! k = Some l ∧
       t.2 = (CpVar Deposit k (length l) true, CpVar Withdraw k (length l) true) ∧
       shape t.1 = (n, length l) ∧ well_shaped t.1.
Proof.
  intros HA Hds Hls Ht.
  apply lookup_zip_with_Some in Ht as (A_k & [D L] & -> & HAk & Ht).
  apply lookup_zip_with_Some in Ht as (D' & L' & [= <- <-] & HD & HL).
  destruct (variables_lookup_inv _ _ _ _ _ Hds HD) as (l & Hl & ->).
  destruct (variables_lookup_inv _ _ _ _ _ Hls HL) as (l' & Hl' & ->).
  assert (l' = l) as -> by congruence.
  destruct (build_A_lookup _ _ _ _ _ HA Hl) as [Hin (A' & HA' & Hinc)].
  assert (A' = A_k) as -> by congruence.
  destruct (incidence_spec _ l Hin) as (A'' & HA'' & Hsh & Hws & _).
  assert (A'' = A_k) as -> by congruence.
  exists l. repeat split; try done; apply Hws.
Qed.

Lemma term_shape n A_k D L s :
  shape A_k = (n, s) → vsize D = s → vsize L = s →
  shape_of (term_of (A_k, (D, L))) = Ok (Vec n) ∧
  extraction_term (A_k, (D, L)) = Ok (term_of (A_k, (D, L))).
Proof.
  intros [= Hr Hc] HD HL.
  assert (Hsub : shape_of (Sub (Var L) (Var D)) = Ok (Vec s)).
  { simpl. rewrite HD, HL. by rewrite decide_True. }
  assert (Hmv : shape_of (MatVec A_k (Sub (Var L) (Var D))) = Ok (Vec n)).
  { change (shape_of (MatVec A_k (Sub (Var L) (Var D))))
      with (s' ← shape_of (Sub (Var L) (Var D));
            if decide (s' = Vec (ncols A_k)) then Ok (Vec (nrows A_k))
            else Raise ValueError).
    rewrite Hsub. simpl. rewrite decide_True by congruence. by rewrite Hr. }
  split; [done|]. unfold extraction_term.
  rewrite (checked_shape _ _ Hsub). simpl. by rewrite (checked_shape _ _ Hmv).
Qed.

Lemma extraction_terms_succeed n li A ds ls :
  build_A n li = Ok A → variables Deposit li = Ok ds → variables Withdraw li = Ok ls →
  traverse extraction_term (zip A (zip ds ls)) = Ok (term_of <$> zip A (zip ds ls)) ∧
  Forall (λ t, shape_of t = Ok (Vec n)) (term_of <$> zip A (zip ds ls)).
Proof.
  intros HA Hds Hls.
  assert (Hall : Forall (λ t, shape_of (term_of t) = Ok (Vec n) ∧
                              extraction_term t = Ok (term_of t)) (zip A (zip ds ls))).
  { apply Forall_lookup. intros k [A_k [D L]] Hk.
    destruct (zipped_lookup_inv _ _ _ _ _ _ _ HA Hds Hls Hk) as (l & _ & Hv & Hsh & _).
    simpl in Hv, Hsh. injection Hv as -> ->. by apply (term_shape _ _ _ _ (length l)). }
  split.
  - apply traverse_Ok_fmap. eapply Forall_impl; [exact Hall|]. by intros t [_ ?].
  - apply Forall_fmap. eapply Forall_impl; [exact Hall|]. by intros t [? _].
Qed.

Lemma foldl_checked_succeeds n ts : ∀ e,
  shape_of e = Ok (Vec n) → Forall (λ t, shape_of t = Ok (Vec n)) ts →
  foldl (λ acc u, a ← acc; checked (Add a u)) (Ok e) ts = Ok (foldl Add e ts).
Proof.
  induction ts as [|t ts IH]; intros e He Hts; simpl; [done|].
  apply Forall_cons in Hts as [Ht Hts].
  assert (Hs : shape_of (Add e t) = Ok (Vec n)).
  { simpl. rewrite He, Ht. simpl. by rewrite decide_True. }
  rewrite (checked_shape _ _ Hs). by apply IH.
Qed.

Lemma cp_sum_list_succeeds n terms :
  terms ≠ [] → Forall (λ t, shape_of t = Ok (Vec n)) terms →
  cp_sum_list terms = Ok (Some (foldl Add (Scalar 0) terms)).
Proof.
  destruct terms as [|t ts]; [done|]. intros _ Hts.
  apply Forall_cons in Hts as [Ht Hts]. simpl.
  assert (Hs : shape_of (Add (Scalar 0) t) = Ok (Vec n)).
  { simpl. by rewrite Ht. }
  rewrite (checked_shape _ _ Hs). simpl.
  by rewrite (foldl_checked_succeeds n).
Qed.

Lemma post_trade_shape R_ gamma_i D L s :
  length R_ = s → vsize D = s → vsize L = s →
  shape_of (post_trade_expr R_ gamma_i D L) = Ok (Vec s) ∧
  post_trade (R_, (gamma_i, (D, L))) = Ok (post_trade_expr R_ gamma_i D L).
Proof.
  intros HR HD HL.
  assert (Ha : shape_of (Add (Const R_) (Scale gamma_i (Var D))) = Ok (Vec s)).
  { simpl. rewrite HR, HD. by rewrite decide_True. }
  assert (Hs : shape_of (post_trade_expr R_ gamma_i D L) = Ok (Vec s)).
  { unfold post_trade_expr.
    change (shape_of (Sub (Add (Const R_) (Scale gamma_i (Var D))) (Var L)))
      with (u ← shape_of (Add (Const R_) (Scale gamma_i (Var D)));
            t ← shape_of (Var L); broadcast u t).
    rewrite Ha. simpl. rewrite HL. by rewrite decide_True. }
  split; [done|]. unfold post_trade.
  rewrite (checked_shape _ _ Ha). simpl. exact (checked_shape _ _ Hs).
Qed.

Lemma build_expressions_succeeds gi li rs fs mv :
  well_formed gi li rs fs mv →
  ∃ e, build_expressions gi li rs fs mv = Ok e ∧
       length (e_new_reserves e) = usable_pools li rs fs ∧
       ∀ k x, e_new_reserves e !! k = Some x →
         ∃ l R_, li !! k = Some l ∧ rs !! k = Some R_ ∧ R_ ≠ [] ∧ l ≠ [] ∧
                 shape_of x = Ok (Vec (length l)).
Proof.
  intros (Hidx & Hne & Hsome & Hmv & Hlen).
  destruct (build_A_succeeds _ _ Hidx) as [A HA].
  destruct (variables_succeeds Deposit li) as [ds Hds].
  destruct (variables_succeeds Withdraw li) as [ls Hls].
  destruct (extraction_terms_succeed _ _ _ _ _ HA Hds Hls) as [Hterms Hshapes].
  destruct (variables_spec _ _ _ Hds) as [Hdlen Hd].
  destruct (variables_spec _ _ _ Hls) as [Hllen Hl].
  pose proof (traverse_Ok_length _ _ _ HA) as HAlen.
  assert (Hnonempty : term_of <$> zip A (zip ds ls) ≠ []).
  { intros Hnil. apply (f_equal length) in Hnil.
    rewrite length_fmap, !length_zip in Hnil. simpl in Hnil.
    destruct li; [done|]. simpl in *. lia. }
  pose proof (cp_sum_list_succeeds _ _ Hnonempty Hshapes) as Hpsi.
  assert (Hpsish : shape_of (foldl Add (Scalar 0) (term_of <$> zip A (zip ds ls)))
                   = Ok (Vec (length mv))).
  { rewrite Hmv. apply (shape_of_sum _ _ _ Sc); [done|by left|by left|done]. }
  set (post := λ t : list R * (R * (variable * variable)),
         post_trade_expr t.1 t.2.1 t.2.2.1 t.2.2.2).
  assert (Hzip : ∀ k t, zip rs (zip fs (zip ds ls)) !! k = Some t →
            ∃ l, li !! k = Some l ∧ rs !! k = Some t.1 ∧ t.1 ≠ [] ∧ l ≠ [] ∧
                 shape_of (post t) = Ok (Vec (length l)) ∧ post_trade t = Ok (post t)).
  { intros k [R_ [g [D L]]] Hk. pose proof (lookup_lt_Some _ _ _ Hk) as Hlt.
    apply lookup_zip_with_Some in Hk as (R' & t1 & [= <- <-] & HR & Hk).
    apply lookup_zip_with_Some in Hk as (g' & t2 & [= <- <-] & Hg & Hk).
    apply lookup_zip_with_Some in Hk as (D' & L' & [= <- <-] & HD & HL).
    destruct (variables_lookup_inv _ _ _ _ _ Hds HD) as (l & Hlk & ->).
    destruct (variables_lookup_inv _ _ _ _ _ Hls HL) as (l' & Hlk' & ->).
    assert (l' = l) as -> by congruence.
    assert (Hlne : l ≠ []).
    { by eapply (proj1 (Forall_lookup _ _)) in Hne; [|exact Hlk]. }
    assert (length R_ = length l) as HRl.
    { apply (Hlen k); [|done|done]. unfold usable_pools.
      rewrite !length_zip in Hlt. lia. }
    destruct (post_trade_shape R_ g (CpVar Deposit k (length l) true)
                (CpVar Withdraw k (length l) true) (length l) HRl eq_refl eq_refl)
      as [Hs Hpt].
    exists l. unfold post. cbn [fst snd]. repeat split; try done.
    intros ->. by destruct l. }
  assert (Hnr : build_new_reserves rs fs ds ls = Ok (post <$> zip rs (zip fs (zip ds ls)))).
  { apply traverse_Ok_fmap, Forall_lookup. intros k t Hk.
    destruct (Hzip k t Hk) as (l & _ & _ & _ & _ & _ & Hpt). exact Hpt. }
  eexists (Expressions A ds ls mv _ _). split; [|split].
  - unfold build_expressions. rewrite HA. simpl. rewrite Hds. simpl.
    rewrite Hls. simpl. rewrite Hterms. simpl. rewrite Hpsi. simpl.
    unfold cp_matmul_list. rewrite Hpsish. simpl. rewrite decide_True by done.
    simpl. rewrite Hnr. simpl. reflexivity.
  - simpl. rewrite length_fmap, !length_zip. unfold usable_pools. lia.
  - simpl. intros k x Hx. rewrite list_lookup_fmap in Hx.
    destruct (zip rs _ !! k) as [t|] eqn:Hk; [|done]. injection Hx as <-.
    destruct (Hzip k t Hk) as (l & ? & ? & ? & ? & ? & _). exists l, (fst t). done.
Qed.

Lemma replicate_ones_sum k : sum_list (replicate k 1%nat) = k.
Proof. induction k as [|k IH]; simpl; [done|]. by rewrite IH. Qed.

Lemma cp_geo_mean_plain k : k ≠ 0%nat → cp_geo_mean (Vec k) None = Ok ().
Proof.
  intros Hk. apply cp_geo_mean_Ok. exists k. simpl.
  rewrite length_replicate, replicate_ones_sum. repeat split; lia.
Qed.

Lemma geo_mean_line_succeeds nr rs k :
  line_ready nr rs k →
  succeeds (geo_mean_line nr rs k
              (if decide (k = 0%nat) then Some [4; 3; 2; 1]%nat else None)).
Proof.
  intros (x & r & a & Hx & Hr & Hne & Hs & Ha & Ha0). unfold geo_mean_line.
  apply getitem_Ok in Hx, Hr. rewrite Hx, bind_Ok_l, Hs, bind_Ok_l.
  assert (cp_geo_mean (Vec a) (if decide (k = 0%nat) then Some [4; 3; 2; 1]%nat else None)
          = Ok ()) as ->.
  { case_decide as Hk0; [|by apply cp_geo_mean_plain].
    rewrite (Ha0 Hk0). reflexivity. }
  rewrite bind_Ok_l, Hr, bind_Ok_l.
  rewrite cp_geo_mean_plain by (destruct r; [done|simpl; lia]).
  rewrite bind_Ok_l. by eexists.
Qed.

Lemma geo_mean_line_first nr rs :
  line_ready nr rs 0 → succeeds (geo_mean_line nr rs 0 (Some [4; 3; 2; 1]%nat)).
Proof. exact (geo_mean_line_succeeds nr rs 0). Qed.

Lemma geo_mean_line_plain nr rs k :
  k ≠ 0%nat → line_ready nr rs k → succeeds (geo_mean_line nr rs k None).
Proof.
  intros Hk H. apply geo_mean_line_succeeds in H. by rewrite decide_False in H.
Qed.



(** With fewer than five entries in [new_reserves], the line that asks for
    the first missing one raises [IndexError]. *)
Lemma build_cons_short nr rs psi :
  (length nr < 5)%nat → (∀ k, (k < length nr)%nat → line_ready nr rs k) →
  build_cons nr rs psi = Raise IndexError.
Proof.
  intros Hshort Hready. unfold build_cons.
  assert (Hmiss : ∀ k p, length nr = k → geo_mean_line nr rs k p = Raise IndexError).
  { intros k p Hk. unfold geo_mean_line.
    assert (getitem nr k = Raise IndexError) as ->; [|done].
    apply getitem_Raise. split; [done|lia]. }
  destruct (decide (length nr = 0)%nat) as [H0|H0]; [rewrite (Hmiss 0%nat) by done; reflexivity|].
  destruct (geo_mean_line_first nr rs (Hready 0%nat ltac:(lia))) as [c0 ->]. simpl.
  destruct (decide (length nr = 1)%nat) as [H1|H1]; [rewrite (Hmiss 1%nat) by done; reflexivity|].
  destruct (geo_mean_line_plain nr rs 1 ltac:(lia) (Hready 1%nat ltac:(lia))) as [c1 ->]. simpl.
  destruct (decide (length nr = 2)%nat) as [H2|H2]; [rewrite (Hmiss 2%nat) by done; reflexivity|].
  destruct (geo_mean_line_plain nr rs 2 ltac:(lia) (Hready 2%nat ltac:(lia))) as [c2 ->]. simpl.
  destruct (decide (length nr = 3)%nat) as [H3|H3]; [rewrite (Hmiss 3%nat) by done; reflexivity|].
  destruct (geo_mean_line_plain nr rs 3 ltac:(lia) (Hready 3%nat ltac:(lia))) as [c3 ->]. simpl.
  unfold sum_line.
  assert (getitem nr 4 = Raise IndexError) as ->; [|done].
  apply getitem_Raise. split; [done|lia].
Qed.

Lemma result_cases {A} (m : result A) : succeeds m ∨ fails m.
Proof. destruct m as [a|e]; [left | right]; by eexists. Qed.

Lemma build_model_needs_five gi li rs fs mv m :
  build_model gi li rs fs mv = Ok m → (5 ≤ usable_pools li rs fs)%nat.
Proof.
  intros Hm.
  destruct (build_model_Ok _ _ _ _ _ _ Hm)
    as (terms & _ & _ & _ & _ & _ & _ & Hnr & Hcons & _).
  destruct (pools_length _ _ _ _ _ _ Hm) as (_ & Hd & Hl & _).
  destruct (build_cons_Ok _ _ _ _ Hcons)
    as (x0 & x1 & x2 & x3 & x4 & r0 & r1 & r2 & r3 & r4 & Hrest).
  destruct Hrest as (_ & _ & _ & _ & H4 & _).
  apply lookup_lt_Some in H4. apply traverse_Ok_length in Hnr.
  rewrite !length_zip in Hnr. unfold usable_pools. lia.
Qed.

Lemma solve_arbitrage_fails {Status} (solve : problem → Status) gi li rs fs mv :
  fails (solve_arbitrage solve gi li rs fs mv) ↔ fails (build_model gi li rs fs mv).
Proof.
  split; intros [e He]; exists e; by apply (solve_arbitrage_Raise solve).
Qed.


Lemma lines_ready gi li rs fs mv e :
  well_formed gi li rs fs mv → (∀ l0, li !! 0%nat = Some l0 → length l0 = 4%nat) →
  length (e_new_reserves e) = usable_pools li rs fs →
  (∀ k x, e_new_reserves e !! k = Some x →
     ∃ l R_, li !! k = Some l ∧ rs !! k = Some R_ ∧ R_ ≠ [] ∧ l ≠ [] ∧
             shape_of x = Ok (Vec (length l))) →
  ∀ k, (k < usable_pools li rs fs)%nat → line_ready (e_new_reserves e) rs k.
Proof.
  intros Hwf Hfirst Hlen Hnr k Hk.
  destruct (e_new_reserves e !! k) as [x|] eqn:Hx;
    [|apply lookup_ge_None in Hx; lia].
  destruct (Hnr k x Hx) as (l & R_ & Hl & HR & HRne & Hlne & Hs).
  exists x, R_, (length l). repeat split; try done.
  - by destruct l.
  - intros ->. by apply Hfirst.
Qed.


(** C9, as the claim states it, fails for the input without any pool: the
    failure is a [TypeError], raised when the objective is formed. *)
Lemma no_pool_raises_TypeError :
  (length ([] : list (list Z)) < 5)%nat ∧
  build_model test_global_indices [] [] [] test_market_value = Raise TypeError.
Proof. split; [simpl; lia | reflexivity]. Qed.

(** C9 (amended).  With fewer than five pools the call fails before the
    solver is reached, whatever the rest of the input.  When there is at
    least one pool, the input is in order, [reserves] and [fees] are as long
    as the pool list and the first pool has four assets, everything before
    the constraint list is built and it is the constraint list that raises
    [IndexError].  With no pool at all the failure is a [TypeError]. *)
Theorem fewer_than_five_pools gi li rs fs mv :
  (length li < 5)%nat →
  (∀ Status (solve : problem → Status), fails (solve_arbitrage solve gi li rs fs mv)) ∧
  (well_formed gi li rs fs mv → length rs = length li → length fs = length li →
   (∀ l0, li !! 0%nat = Some l0 → length l0 = 4%nat) →
   ∃ e, build_expressions gi li rs fs mv = Ok e ∧
        build_cons (e_new_reserves e) rs (e_psi e) = Raise IndexError ∧
        ∀ Status (solve : problem → Status),
          solve_arbitrage solve gi li rs fs mv = Raise IndexError) ∧
  (li = [] → build_model gi li rs fs mv = Raise TypeError).
Proof.
  intros Hshort. split; [|split].
  - intros Status solve. apply solve_arbitrage_fails.
    destruct (result_cases (build_model gi li rs fs mv)) as [[m Hm]|]; [|done].
    apply build_model_needs_five in Hm. unfold usable_pools in Hm. lia.
  - intros Hwf Hrs Hfs Hfirst.
    destruct (build_expressions_succeeds _ _ _ _ _ Hwf) as (e & He & Hlen & Hnr).
    assert (Hcons : build_cons (e_new_reserves e) rs (e_psi e) = Raise IndexError).
    { apply build_cons_short.
      - rewrite Hlen. unfold usable_pools. lia.
      - intros k Hk. rewrite Hlen in Hk. eapply lines_ready; eauto. }
    exists e. split; [done|]. split; [done|].
    intros Status solve. apply solve_arbitrage_Raise.
    unfold build_model. by rewrite He, bind_Ok_l, Hcons.
  - intros ->. reflexivity.
Qed.

Lemma fewer_than_five_pools_witness :
  fails (solve_arbitrage (λ _ : problem, ()) test_global_indices
           [[0; 1; 2; 3]; [0; 1]]%Z [[4; 4; 4; 4]; [10; 1]] [0.998; 0.997]
           test_market_value) ∧
  solve_arbitrage (λ _ : problem, ()) test_global_indices
    [[0; 1; 2; 3]; [0; 1]]%Z [[4; 4; 4; 4]; [10; 1]] [0.998; 0.997]
    test_market_value = Raise IndexError.
Proof.
  destruct (fewer_than_five_pools test_global_indices
              [[0; 1; 2; 3]; [0; 1]]%Z [[4; 4; 4; 4]; [10; 1]] [0.998; 0.997]
              test_market_value) as (Hfails & Hidx & _).
  - simpl. lia.
  - split; [apply Hfails|].
    destruct Hidx as (e & _ & _ & Hraise).
    + repeat split.
      * repeat constructor; unfold in_range; simpl; lia.
      * repeat constructor; discriminate.
      * discriminate.
      * intros [|[|k]] l R_ Hk; simpl; intros [= <-] [= <-]; reflexivity.
    + reflexivity.
    + reflexivity.
    + intros l0 [= <-]. reflexivity.
    + apply Hraise.
Defined.

(** * Inputs that are not in order *)











(** * No trade at all *)

Lemma zero_trade_admissible x : admissible zero_trade x.
Proof.
  unfold admissible, zero_trade. split; [apply length_replicate|].
  intros _. apply Forall_replicate. lra.
Qed.

Lemma post_trade_at_zero gamma_i (R_ : list R) :
  zip_with Rminus (zip_with Rplus R_ (map (Rmult gamma_i) (replicate (length R_) 0)))
    (replicate (length R_) 0) = R_.
Proof.
  induction R_ as [|r R_ IH]; simpl; [done|]. f_equal; [lra | exact IH].
Qed.

Lemma eval_post_trade_zero R_ gamma_i D L :
  vsize D = length R_ → vsize L = length R_ →
  eval zero_trade (post_trade_expr R_ gamma_i D L) = R_.
Proof.
  intros HD HL.
  rewrite eval_post_trade by (unfold zero_trade; by rewrite length_replicate).
  unfold zero_trade. rewrite HD, HL. apply post_trade_at_zero.
Qed.

Lemma dot_zeros row v : Forall (λ a, a = 0) v → dot row v = 0.
Proof.
  intros Hv. revert row. unfold dot.
  induction Hv as [|a v -> _ IH]; intros [|b row]; simpl; try done.
  rewrite IH. lra.
Qed.

Lemma extracted_zero A_k D L :
  extracted zero_trade (A_k, (D, L)) = replicate (length (entries A_k)) 0.
Proof.
  simpl. induction (entries A_k) as [|row rows IH]; simpl; [done|].
  f_equal; [|exact IH]. apply dot_zeros. unfold zero_trade.
  apply Forall_lookup. intros i a Hi.
  apply lookup_zip_with_Some in Hi as (x & y & -> & Hx & Hy).
  apply lookup_replicate in Hx as [-> _]. apply lookup_replicate in Hy as [-> _]. lra.
Qed.

Lemma vsum_zeros n vs :
  Forall (λ v, v = replicate n 0) vs → vsum n vs = replicate n 0.
Proof.
  unfold vsum. induction 1 as [|v vs -> _ IH]; simpl; [done|].
  rewrite zip_with_replicate. by rewrite Rplus_0_l.
Qed.

Lemma psi_at_zero gi li rs fs mv m :
  build_model gi li rs fs mv = Ok m →
  eval zero_trade (m_psi m) = replicate (length gi) 0.
Proof.
  intros Hm.
  rewrite (eval_psi _ _ _ _ _ _ zero_trade Hm) by (intros x; apply length_replicate).
  apply vsum_zeros, Forall_fmap, Forall_lookup. intros k [A_k [D L]] Hk.
  destruct (pools_lookup_inv _ _ _ _ _ _ _ _ Hm Hk) as (l & _ & _ & Hsh & Hws).
  simpl in Hsh, Hws. injection Hsh as Hr _. destruct Hws as [Hlen _].
  change (extracted zero_trade (A_k, (D, L)) = replicate (length gi) 0).
  by rewrite extracted_zero, Hlen, Hr.
Qed.

Lemma geo_mean_sat_at_zero x r p :
  eval zero_trade x = r → nonneg_vec r →
  (sat zero_trade (GeoMeanGe x p r) ↔
   geo_mean r (weights None (length r)) <= geo_mean r (weights p (length r))).
Proof.
  intros Hx Hr. simpl. rewrite Hx. tauto.
Qed.

(** Zero trade against the emitted program.  In a model built from
    non-negative reserves, each as long as its pool's index list, zero
    trade gives the objective the value 0 and satisfies every constraint
    after the first; it satisfies the first one exactly when the plain
    geometric mean of the first pool's reserves is at most their geometric
    mean weighted by [4, 3, 2, 1]. *)
Lemma zero_trade_feasible_iff gi li rs fs mv m :
  build_model gi li rs fs mv = Ok m →
  (∀ k l R_, (k < 5)%nat → li !! k = Some l → rs !! k = Some R_ →
     length R_ = length l ∧ nonneg_vec R_) →
  objective_value zero_trade (prob_objective (m_prob m)) = 0 ∧
  Forall (sat zero_trade) (drop 1 (prob_constraints (m_prob m))) ∧
  (feasible zero_trade (m_prob m) ↔
   ∀ r0, rs !! 0%nat = Some r0 →
     geo_mean r0 (replicate (length r0) 1%nat) <= geo_mean r0 [4; 3; 2; 1]%nat).
Proof.
  intros Hm Hrs.
  pose proof (psi_at_zero _ _ _ _ _ _ Hm) as Hpsi.
  destruct (build_model_Ok _ _ _ _ _ _ Hm)
    as (terms & _ & _ & _ & _ & _ & _ & _ & Hcons & Hobj).
  destruct (build_cons_Ok _ _ _ _ Hcons)
    as (x0 & x1 & x2 & x3 & x4 & r0 & r1 & r2 & r3 & r4 & Hrest).
  destruct Hrest as (H0 & H1 & H2 & H3 & H4 & Hr0 & Hr1 & Hr2 & Hr3 & Hr4 & Heq).
  assert (Hat : ∀ k x r, (k < 5)%nat → m_new_reserves m !! k = Some x →
            rs !! k = Some r → eval zero_trade x = r ∧ nonneg_vec r).
  { intros k x r Hk Hx Hr.
    destruct (new_reserves_lookup_inv _ _ _ _ _ _ _ _ Hm Hx)
      as (l & R_ & g & Hl & HR & _ & -> & _).
    assert (R_ = r) as -> by congruence.
    destruct (Hrs k l r Hk Hl Hr) as [Hlen Hnn]. split; [|done].
    by apply eval_post_trade_zero. }
  destruct (Hat 0%nat x0 r0 ltac:(lia) H0 Hr0) as [E0 N0].
  destruct (Hat 1%nat x1 r1 ltac:(lia) H1 Hr1) as [E1 N1].
  destruct (Hat 2%nat x2 r2 ltac:(lia) H2 Hr2) as [E2 N2].
  destruct (Hat 3%nat x3 r3 ltac:(lia) H3 Hr3) as [E3 N3].
  destruct (Hat 4%nat x4 r4 ltac:(lia) H4 Hr4) as [E4 N4].
  assert (Hrest : Forall (sat zero_trade) (drop 1 (prob_constraints (m_prob m)))).
  { rewrite Heq. simpl drop.
    repeat apply List.Forall_cons; try apply List.Forall_nil.
    - apply geo_mean_sat_at_zero; [done|done|]. apply Rle_refl.
    - apply geo_mean_sat_at_zero; [done|done|]. apply Rle_refl.
    - apply geo_mean_sat_at_zero; [done|done|]. apply Rle_refl.
    - simpl. rewrite E4. apply Rle_refl.
    - simpl. by rewrite E4.
    - simpl. rewrite Hpsi. apply Forall_replicate. lra. }
  split; [|split; [done|]].
  - rewrite Hobj. simpl. rewrite Hpsi. apply dot_zeros, Forall_replicate. done.
  - split.
    + intros [_ Hall] r0' Hr0'. assert (r0' = r0) as -> by congruence.
      rewrite Heq in Hall. apply Forall_cons in Hall as [Hfirst _].
      by apply (geo_mean_sat_at_zero x0 r0 (Some [4; 3; 2; 1]%nat)) in Hfirst.
    + intros Hfirst. split; [intros x _; apply zero_trade_admissible|].
      rewrite Heq in Hrest |- *. apply Forall_cons. split; [|exact Hrest].
      apply geo_mean_sat_at_zero; [done|done|]. by apply Hfirst.
Qed.

(** If zero trade is feasible, no optimum has a negative value. *)
Lemma optimum_nonneg gi li rs fs mv m ρ :
  build_model gi li rs fs mv = Ok m →
  (∀ k l R_, (k < 5)%nat → li !! k = Some l → rs !! k = Some R_ →
     length R_ = length l ∧ nonneg_vec R_) →
  feasible zero_trade (m_prob m) → optimal_at ρ (m_prob m) →
  0 <= objective_value ρ (prob_objective (m_prob m)).
Proof.
  intros Hm Hrs Hzero [_ Hbest].
  destruct (zero_trade_feasible_iff _ _ _ _ _ _ Hm Hrs) as [<- _].
  by apply Hbest.
Qed.

Lemma skewed_builds :
  succeeds (build_model test_global_indices test_local_indices skewed_reserves
              test_fees test_market_value).
Proof. eexists. reflexivity. Qed.

Lemma root_pos k y : 0 < y → root k y = Rpower y (/ INR k).
Proof. intros Hy. unfold root. destruct (Rle_dec y 0); [lra|done]. Qed.

Lemma skewed_geo_means :
  geo_mean [1; 1; 1; 16] [4; 3; 2; 1]%nat
    < geo_mean [1; 1; 1; 16] (replicate 4 1%nat).
Proof.
  unfold geo_mean. simpl.
  match goal with
  | |- root _ ?a < root _ ?b => replace a with 16 by lra; replace b with 16 by lra
  end.
  rewrite !root_pos by lra.
  apply Rpower_lt; [lra|].
  replace (INR 10) with 10 by (simpl; lra). replace (INR 4) with 4 by (simpl; lra).
  lra.
Qed.

(** C1 at the failing input.  The reference scenario with reserves
    [1, 1, 1, 16] in the first pool is a valid input and the model is built;
    zero trade is admissible and meets every constraint after the first, but
    it violates the first one: the weighted geometric mean of the unchanged
    reserves, [16^(1/10)], is below their plain geometric mean, 2.  Zero
    trade is not feasible. *)
Theorem zero_trade_infeasible_for_skewed_pool :
  valid_input test_global_indices test_local_indices skewed_reserves
    test_fees test_market_value ∧
  ∃ m, build_model test_global_indices test_local_indices skewed_reserves
         test_fees test_market_value = Ok m ∧
       (∀ x, admissible zero_trade x) ∧
       Forall (sat zero_trade) (drop 1 (prob_constraints (m_prob m))) ∧
       ¬ feasible zero_trade (m_prob m).
Proof.
  split.
  { unfold valid_input, nonneg_vec. simpl.
    repeat split; repeat constructor; simpl; try lia; try lra. }
  destruct skewed_builds as [m Hm]. exists m. split; [exact Hm|].
  split; [apply zero_trade_admissible|].
  destruct (zero_trade_feasible_iff _ _ _ _ _ _ Hm) as (_ & Hrest & Hiff).
  - intros [|[|[|[|[|k]]]]] l R_ Hk; simpl; intros [= <-] [= <-];
      (split; [reflexivity | repeat constructor; lra]) || lia.
  - split; [exact Hrest|]. intros Hfeas.
    pose proof (proj1 Hiff Hfeas [1; 1; 1; 16] eq_refl) as Hle.
    pose proof skewed_geo_means. simpl length in Hle. lra.
Qed.

Lemma root_pow k c : 0 <= c → (0 < k)%nat → root k (c ^ k) = c.
Proof.
  intros Hc Hk. destruct (Rle_lt_or_eq_dec 0 c Hc) as [Hpos | <-].
  - rewrite root_pos by (by apply pow_lt).
    rewrite <- Rpower_pow by done. rewrite Rpower_mult.
    rewrite Rinv_r by (apply not_0_INR; lia). by apply Rpower_1.
  - unfold root. rewrite pow_i by done. destruct (Rle_dec 0 0); [done|lra].
Qed.

(** When the four reserves of the first pool are equal, as they are in the
    reference scenario, both means are that common value and the slip in the
    first constraint does not show: zero trade is feasible. *)
Lemma zero_trade_feasible_balanced gi li rs fs mv m c :
  build_model gi li rs fs mv = Ok m →
  (∀ k l R_, (k < 5)%nat → li !! k = Some l → rs !! k = Some R_ →
     length R_ = length l ∧ nonneg_vec R_) →
  rs !! 0%nat = Some [c; c; c; c] →
  feasible zero_trade (m_prob m).
Proof.
  intros Hm Hrs Hr0.
  apply (zero_trade_feasible_iff _ _ _ _ _ _ Hm Hrs).
  intros r0 Hr0'. assert (r0 = [c; c; c; c]) as -> by congruence.
  assert (0 <= c) as Hc.
  { destruct (li !! 0%nat) as [l|] eqn:Hl.
    - destruct (Hrs 0%nat l _ ltac:(lia) Hl Hr0) as [_ Hnn].
      by apply Forall_cons_1 in Hnn as [? _].
    - destruct (build_model_Ok _ _ _ _ _ _ Hm)
        as (terms & _ & _ & _ & _ & _ & _ & _ & Hcons & _).
      destruct (build_cons_Ok _ _ _ _ Hcons)
        as (x0 & x1 & x2 & x3 & x4 & r0 & r1 & r2 & r3 & r4 & Hrest).
      destruct Hrest as (H0 & _).
      destruct (new_reserves_lookup_inv _ _ _ _ _ _ _ _ Hm H0) as (l & ? & ? & ? & _).
      congruence. }
  unfold geo_mean. simpl.
  replace (c * 1 * (c * 1 * (c * 1 * (c * 1 * 1)))) with (c ^ 4) by (simpl; lra).
  replace (c * (c * (c * (c * 1))) * (c * (c * (c * 1)) * (c * (c * 1) * (c * 1 * 1))))
    with (c ^ 10) by (simpl; lra).
  rewrite !root_pow by (done || lia). apply Rle_refl.
Qed.

Example reference_scenario_feasible_at_zero :
  ∃ m, build_model test_global_indices test_local_indices test_reserves
         test_fees test_market_value = Ok m ∧
       feasible zero_trade (m_prob m) ∧
       objective_value zero_trade (prob_objective (m_prob m)) = 0.
Proof.
  destruct test_builds as [m Hm]. exists m. split; [exact Hm|].
  assert (Hrs : ∀ k l R_, (k < 5)%nat → test_local_indices !! k = Some l →
            test_reserves !! k = Some R_ → length R_ = length l ∧ nonneg_vec R_).
  { intros [|[|[|[|[|k]]]]] l R_ Hk; simpl; intros [= <-] [= <-];
      (split; [reflexivity | repeat constructor; lra]) || lia. }
  split.
  - by apply (zero_trade_feasible_balanced _ _ _ _ _ _ 4 Hm Hrs).
  - by apply (zero_trade_feasible_iff _ _ _ _ _ _ Hm Hrs).
Qed.

(** * More on the index mapper *)

Lemma resolve_in_range n idx : in_range n idx → (resolve n idx < n)%nat.
Proof. intros H. by destruct (np_index_in_range n idx H). Qed.

Lemma np_index_normalised n idx :
  in_range n idx → np_index n (Z.of_nat (resolve n idx)) = np_index n idx.
Proof.
  intros H. destruct (np_index_in_range n idx H) as [-> Hlt].
  destruct (np_index_in_range n (Z.of_nat (resolve n idx))) as [-> _].
  { unfold in_range in *. lia. }
  f_equal. unfold resolve at 1. rewrite decide_True by lia. apply Nat2Z.id.
Qed.

Lemma setitem_nrows A idx i v A' : setitem A idx i v = Ok A' → nrows A' = nrows A.
Proof.
  unfold setitem. intros H. apply bind_Ok in H as (r & _ & H).
  apply bind_Ok in H as (c & _ & [= <-]). done.
Qed.

Lemma traverse_cons {A B} (f : A → result B) a l :
  traverse f (a :: l) = b ← f a; bs ← traverse f l; Ok (b :: bs).
Proof. reflexivity. Qed.

Lemma fill_normalised l : ∀ A i,
  Forall (in_range (nrows A)) l → fill A i (normalise (nrows A) l) = fill A i l.
Proof.
  induction l as [|idx l IH]; intros A i Hl; [done|].
  apply Forall_cons_1 in Hl as [Hidx Hl]. simpl.
  assert (setitem A (Z.of_nat (resolve (nrows A) idx)) i 1 = setitem A idx i 1) as ->.
  { unfold setitem. by rewrite np_index_normalised. }
  destruct (setitem A idx i 1) as [A'|e] eqn:HA'; [|done].
  rewrite !bind_Ok_l. apply setitem_nrows in HA'.
  rewrite <- HA'. apply IH. by rewrite HA'.
Qed.

(** X1 (negative indices).  When numpy accepts every index, the index
    mapper builds the same matrices as for the index lists with the negative
    indices counted from the end, which lie in [[0, n)]. *)
Theorem negative_indices_normalise (n : nat) (local_indices : list (list Z)) :
  Forall (Forall (in_range n)) local_indices →
  build_A n (normalise n <$> local_indices) = build_A n local_indices ∧
  Forall (Forall (λ idx, (0 ≤ idx < Z.of_nat n)%Z)) (normalise n <$> local_indices).
Proof.
  intros Hall. split.
  - unfold build_A. induction Hall as [|l li Hl _ IH]; [done|].
    rewrite fmap_cons, !traverse_cons, IH.
    assert (incidence n (normalise n l) = incidence n l) as ->; [|done].
    unfold incidence, normalise.
    rewrite length_fmap. exact (fill_normalised l (zeros n (length l)) 0 Hl).
  - apply Forall_fmap. eapply Forall_impl; [exact Hall|]. intros l Hl.
    apply Forall_fmap. eapply Forall_impl; [exact Hl|]. intros idx Hidx. simpl.
    pose proof (resolve_in_range n idx Hidx). lia.
Qed.

Lemma negative_indices_normalise_witness :
  build_A 4 [[0; 3]%Z; [1; 2]%Z] = build_A 4 [[-4; -1]%Z; [1; -2]%Z].
Proof.
  destruct (negative_indices_normalise 4 [[-4; -1]%Z; [1; -2]%Z]) as [H _].
  - repeat constructor; unfold in_range; simpl; lia.
  - exact H.
Defined.

Lemma dot_nil_r row : dot row [] = 0.
Proof. unfold dot. by destruct row. Qed.

Lemma dot_indicator_row n l v r : dot (indicator_row n l r) v = scattered n l v r.
Proof.
  unfold dot, scattered, indicator_row. revert v.
  induction l as [|idx l IH]; intros [|x v]; simpl; try done.
  rewrite IH. case_decide; lra.
Qed.

(** The incidence matrix in closed form: row [r] has a 1 in the columns of
    the slots mapped to [r]. *)
Lemma incidence_closed_form n l :
  Forall (in_range n) l →
  incidence n l = Ok (Matrix n (length l) (indicator_row n l <$> seq 0 n)).
Proof.
  intros Hl. destruct (incidence_spec n l Hl) as (A & -> & Hsh & [Hlen Hrows] & Hent).
  destruct A as [nr nc es]. injection Hsh as -> ->. simpl in *. do 2 f_equal.
  apply list_eq. intros r. rewrite list_lookup_fmap.
  destruct (decide (r < n)%nat) as [Hr|Hr].
  - rewrite lookup_seq_lt by done. simpl.
    destruct (es !! r) as [row|] eqn:Hrow; [|apply lookup_ge_None in Hrow; lia].
    f_equal. apply list_eq. intros i. unfold indicator_row.
    rewrite list_lookup_fmap.
    destruct (l !! i) as [idx|] eqn:Hi; simpl.
    + specialize (Hent i idx r Hi Hr). unfold entry in Hent. simpl in Hent.
      by rewrite Hrow in Hent.
    + apply lookup_ge_None. apply lookup_ge_None in Hi.
      eapply (proj1 (Forall_lookup _ _)) in Hrows; [|exact Hrow]. lia.
  - rewrite lookup_seq_ge by lia. simpl. apply lookup_ge_None. lia.
Qed.

Lemma scattered_absent n l v r :
  r ∉ (resolve n <$> l) → scattered n l v r = 0.
Proof.
  unfold scattered. revert v. induction l as [|idx l IH]; intros [|x v] Hr; simpl; try done.
  rewrite fmap_cons in Hr. apply not_elem_of_cons in Hr as [Hne Hr].
  rewrite IH by done. rewrite decide_False by done. lra.
Qed.

Lemma Rsum_cons a l : Rsum (a :: l) = a + Rsum l.
Proof. reflexivity. Qed.

Lemma Rsum_indicator_out y j n : ∀ s,
  (j < s)%nat → Rsum ((λ r, if decide (r = j) then y else 0) <$> seq s n) = 0.
Proof.
  induction n as [|n IH]; intros s Hs; [done|].
  change (seq s (S n)) with (s :: seq (S s) n).
  rewrite fmap_cons, Rsum_cons, IH by lia. rewrite decide_False by lia. lra.
Qed.

Lemma Rsum_indicator y j n : ∀ s,
  (s ≤ j < s + n)%nat →
  Rsum ((λ r, if decide (r = j) then y else 0) <$> seq s n) = y.
Proof.
  induction n as [|n IH]; intros s Hj; [lia|].
  change (seq s (S n)) with (s :: seq (S s) n). rewrite fmap_cons, Rsum_cons.
  destruct (decide (s = j)) as [->|Hne].
  - rewrite Rsum_indicator_out by lia. lra.
  - rewrite IH by lia. lra.
Qed.

Lemma Rsum_fmap_plus {A} (f g : A → R) (xs : list A) :
  Rsum ((λ a, f a + g a) <$> xs) = Rsum (f <$> xs) + Rsum (g <$> xs).
Proof.
  induction xs as [|a xs IH]; [simpl; lra|].
  rewrite !fmap_cons, !Rsum_cons, IH. lra.
Qed.

Lemma Rsum_fmap_zero {A} (xs : list A) : Rsum ((λ _, 0) <$> xs) = 0.
Proof.
  induction xs as [|a xs IH]; [done|]. rewrite fmap_cons, Rsum_cons, IH. lra.
Qed.

Lemma scattered_nil_l n v r : scattered n [] v r = 0.
Proof. reflexivity. Qed.

Lemma scattered_cons n idx l x v r :
  scattered n (idx :: l) (x :: v) r
  = (if decide (r = resolve n idx) then x else 0) + scattered n l v r.
Proof. reflexivity. Qed.

Lemma Rsum_scattered n l : ∀ v,
  Forall (in_range n) l → length v = length l →
  Rsum (scattered n l v <$> seq 0 n) = Rsum v.
Proof.
  induction l as [|idx l IH]; intros [|x v] Hl Hlen; simpl in Hlen; try done.
  - apply Rsum_fmap_zero.
  - apply Forall_cons_1 in Hl as [Hidx Hl].
    rewrite (list_fmap_ext (scattered n (idx :: l) (x :: v))
               (λ r, (if decide (r = resolve n idx) then x else 0) + scattered n l v r)
               (seq 0 n)) by (intros; apply scattered_cons).
    rewrite (Rsum_fmap_plus (λ r, if decide (r = resolve n idx) then x else 0)).
    rewrite Rsum_indicator by (pose proof (resolve_in_range n idx Hidx); lia).
    rewrite Rsum_cons. f_equal. apply IH; [done|lia].
Qed.

Lemma scattered_single n l : ∀ i v idx x,
  NoDup (resolve n <$> l) → l !! i = Some idx → v !! i = Some x →
  scattered n l v (resolve n idx) = x.
Proof.
  induction l as [|a l IH]; intros i [|y v] idx x Hnd Hi Hx; try done.
  rewrite fmap_cons in Hnd. apply NoDup_cons in Hnd as [Hnotin Hnd].
  rewrite scattered_cons. destruct i as [|i]; simpl in Hi, Hx.
  - injection Hi as ->. injection Hx as ->.
    rewrite decide_True by done. rewrite scattered_absent by done. lra.
  - rewrite decide_False.
    + rewrite (IH i v idx x) by done. lra.
    + intros Heq. apply Hnotin. rewrite <- Heq.
      apply list_elem_of_fmap. exists idx. split; [done|].
      by eapply list_elem_of_lookup_2.
Qed.

Lemma pool_matrix gi li rs fs mv m k l :
  build_model gi li rs fs mv = Ok m → li !! k = Some l →
  Forall (in_range (length gi)) l ∧
  zip (m_A m) (zip (m_deltas m) (m_lambdas m)) !! k =
    Some (Matrix (length gi) (length l) (indicator_row (length gi) l <$> seq 0 (length gi)),
          (CpVar Deposit k (length l) true, CpVar Withdraw k (length l) true)).
Proof.
  intros Hm Hl.
  destruct (build_model_Ok _ _ _ _ _ _ Hm) as (terms & HA & _).
  destruct (pools_lookup _ _ _ _ _ _ _ _ Hm Hl) as (A_k & Hz & HAk & _).
  destruct (build_A_lookup _ _ _ _ _ HA Hl) as [Hin (A' & HA' & Hinc)].
  rewrite (incidence_closed_form _ _ Hin) in Hinc. injection Hinc as <-.
  split; [done|]. rewrite HAk in HA'. by injection HA' as ->.
Qed.

Lemma extracted_closed_form ρ n l D L :
  extracted ρ (Matrix n (length l) (indicator_row n l <$> seq 0 n), (D, L))
  = scattered n l (zip_with Rminus (ρ L) (ρ D)) <$> seq 0 n.
Proof.
  unfold extracted. simpl entries.
  change (map ?f ?xs) with (f <$> xs). rewrite <- list_fmap_compose.
  apply list_fmap_ext. intros i r _. simpl. apply dot_indicator_row.
Qed.

(** X2 (scatter).  What a pool contributes to [psi] at global asset [r] is
    the sum, over the slots of the pool that are mapped to [r], of
    withdrawal minus deposit.  Slots that share a global index are added
    up: a repeated index in a pool is not rejected. *)
Theorem pool_extraction_scatters gi li rs fs mv m k l :
  build_model gi li rs fs mv = Ok m → li !! k = Some l →
  ∃ t, zip (m_A m) (zip (m_deltas m) (m_lambdas m)) !! k = Some t ∧
       t.2 = (CpVar Deposit k (length l) true, CpVar Withdraw k (length l) true) ∧
       ∀ ρ, extracted ρ t
            = scattered (length gi) l (zip_with Rminus (ρ t.2.2) (ρ t.2.1))
                <$> seq 0 (length gi).
Proof.
  intros Hm Hl. destruct (pool_matrix _ _ _ _ _ _ _ _ Hm Hl) as [_ Hz].
  eexists. split; [exact Hz|]. split; [done|].
  intros ρ. apply extracted_closed_form.
Qed.

Lemma pool_extraction_scatters_witness :
  ∃ m t, build_model test_global_indices test_local_indices test_reserves
           test_fees test_market_value = Ok m ∧
         zip (m_A m) (zip (m_deltas m) (m_lambdas m)) !! 2%nat = Some t ∧
         ∀ ρ, extracted ρ t
              = scattered 4 [1; 2]%Z (zip_with Rminus (ρ t.2.2) (ρ t.2.1)) <$> seq 0 4.
Proof.
  destruct test_builds as [m Hm].
  destruct (pool_extraction_scatters _ _ _ _ _ _ 2%nat [1; 2]%Z Hm eq_refl)
    as (t & Ht & _ & Hsc).
  exists m, t. split; [exact Hm|]. split; [exact Ht | exact Hsc].
Defined.

(** X3 (each slot reaches its asset).  When the indices of a pool are
    pairwise distinct, the pool's contribution to [psi] at the global asset
    of slot [i] is exactly withdrawal minus deposit of slot [i]. *)
Theorem slot_reaches_its_asset gi li rs fs mv m k l i idx ρ w d :
  build_model gi li rs fs mv = Ok m → li !! k = Some l →
  NoDup (resolve (length gi) <$> l) → l !! i = Some idx →
  ρ (CpVar Withdraw k (length l) true) !! i = Some w →
  ρ (CpVar Deposit k (length l) true) !! i = Some d →
  ∃ t, zip (m_A m) (zip (m_deltas m) (m_lambdas m)) !! k = Some t ∧
       extracted ρ t !! resolve (length gi) idx = Some (w - d).
Proof.
  intros Hm Hl Hnd Hi Hw Hd.
  destruct (pool_matrix _ _ _ _ _ _ _ _ Hm Hl) as [Hin Hz].
  eexists. split; [exact Hz|]. rewrite extracted_closed_form.
  rewrite list_lookup_fmap, lookup_seq_lt; simpl.
  - f_equal. apply (scattered_single _ _ i); [done|done|].
    apply lookup_zip_with_Some. eauto.
  - apply resolve_in_range. eapply (proj1 (Forall_lookup _ _)) in Hin; eauto.
Qed.

Lemma slot_reaches_its_asset_witness :
  ∃ m t, build_model test_global_indices test_local_indices test_reserves
           test_fees test_market_value = Ok m ∧
         zip (m_A m) (zip (m_deltas m) (m_lambdas m)) !! 2%nat = Some t ∧
         extracted (drain 2 7) t !! 1%nat = Some (7 - 0).
Proof.
  destruct test_builds as [m Hm].
  destruct (slot_reaches_its_asset _ _ _ _ _ m 2%nat [1; 2]%Z 0%nat 1%Z (drain 2 7) 7 0
              Hm eq_refl) as (t & Ht & Hex).
  - repeat constructor; simpl; rewrite ?elem_of_cons, ?elem_of_nil; unfold resolve; simpl; lia.
  - reflexivity.
  - reflexivity.
  - reflexivity.
  - exists m, t. split; [exact Hm|]. split; [exact Ht | exact Hex].
Defined.

Lemma Rsum_zip_with_plus u : ∀ v,
  length u = length v → Rsum (zip_with Rplus u v) = Rsum u + Rsum v.
Proof.
  induction u as [|a u IH]; intros [|b v] Hlen; simpl in *; try done; [lra|].
  rewrite IH by lia. lra.
Qed.

Lemma Rsum_zip_with_minus u : ∀ v,
  length u = length v → Rsum (zip_with Rminus u v) = Rsum u - Rsum v.
Proof.
  induction u as [|a u IH]; intros [|b v] Hlen; simpl in *; try done; [lra|].
  rewrite IH by lia. lra.
Qed.

Lemma Rsum_zeros n : Rsum (replicate n 0) = 0.
Proof. induction n as [|n IH]; simpl; [done|]. rewrite IH. lra. Qed.

Lemma Rsum_vsum n vs :
  Forall (λ v, length v = n) vs → Rsum (vsum n vs) = Rsum (Rsum <$> vs).
Proof.
  unfold vsum. intros Hvs.
  assert (Hgen : ∀ acc, length acc = n →
            Rsum (foldl (zip_with Rplus) acc vs) = Rsum acc + Rsum (Rsum <$> vs)).
  { induction Hvs as [|v vs Hv _ IH]; intros acc Hacc; [simpl; lra|].
    rewrite fmap_cons, Rsum_cons. cbn [foldl].
    rewrite IH by (rewrite length_zip_with; lia).
    rewrite Rsum_zip_with_plus by lia. lra. }
  rewrite Hgen by apply length_replicate. rewrite Rsum_zeros. lra.
Qed.

(** * A trade in the reference scenario *)

Lemma root_mono k x y : (0 < k)%nat → 0 < x → x <= y → root k x <= root k y.
Proof.
  intros Hk Hx Hxy. rewrite !root_pos by lra.
  apply Rle_Rpower_l; [|lra].
  left. apply Rinv_0_lt_compat, lt_0_INR. lia.
Qed.

Lemma arbitrage_trade_admissible x : admissible arbitrage_trade x.
Proof.
  unfold admissible, arbitrage_trade. split; [apply length_resize|].
  intros _. apply Forall_resize; [lra|].
  destruct (vkind_of x), (vpool x) as [|[|[|[|[|k]]]]];
    repeat constructor; lra.
Qed.

(** The round trip is feasible in the reference scenario: pool 3 keeps its
    geometric mean, [40.997 * 48.8 >= 40 * 50], pool 4 its sum,
    [8.9 + 11.1988 >= 20], and the trader is left with 0.1 of asset 2,
    worth 0.2. *)
Lemma arbitrage_trade_feasible :
  ∃ m, build_model test_global_indices test_local_indices test_reserves
         test_fees test_market_value = Ok m ∧
       feasible arbitrage_trade (m_prob m) ∧
       Rsum (eval arbitrage_trade (m_psi m)) = 0.1 ∧
       objective_value arbitrage_trade (prob_objective (m_prob m)) = 0.2.
Proof.
  eexists. split; [reflexivity|]. split; [split|split].
  - intros x _. apply arbitrage_trade_admissible.
  - cbn [m_prob prob_constraints].
    repeat apply List.Forall_cons; try apply List.Forall_nil; simpl.
    + replace (4 + 0.998 * 0 - 0) with 4 by lra.
      split; [repeat constructor; lra|]. unfold geo_mean. simpl.
      replace (4 * 1 * (4 * 1 * (4 * 1 * (4 * 1 * 1)))) with (4 ^ 4) by (simpl; lra).
      replace (4 * (4 * (4 * (4 * 1))) * (4 * (4 * (4 * 1)) * (4 * (4 * 1) * (4 * 1 * 1))))
        with (4 ^ 10) by (simpl; lra).
      rewrite !root_pow by (lra || lia). lra.
    + split; [repeat constructor; lra|]. unfold geo_mean. simpl.
      apply root_mono; [lia|lra|lra].
    + split; [repeat constructor; lra|]. unfold geo_mean. simpl.
      apply root_mono; [lia|lra|lra].
    + split; [repeat constructor; lra|]. unfold geo_mean. simpl.
      apply root_mono; [lia|lra|lra].
    + lra.
    + lra.
    + lra.
    + unfold dot. simpl. lra.
    + unfold dot. simpl. lra.
    + unfold dot. simpl. lra.
    + unfold dot. simpl. lra.
  - simpl. unfold dot. simpl. lra.
  - simpl. unfold dot. simpl. lra.
Qed.

(** X4 (conservation).  Under an assignment that gives each variable a
    value of its size, the components of [psi] add up to the total withdrawn
    minus the total deposited, over all pools. *)
Theorem psi_conserves_totals gi li rs fs mv m ρ :
  build_model gi li rs fs mv = Ok m → (∀ x, length (ρ x) = vsize x) →
  Rsum (eval ρ (m_psi m))
  = Rsum ((λ t : matrix * (variable * variable), Rsum (ρ t.2.2) - Rsum (ρ t.2.1))
            <$> zip (m_A m) (zip (m_deltas m) (m_lambdas m))).
Proof.
  intros Hm Hρ. rewrite (eval_psi _ _ _ _ _ _ ρ Hm Hρ).
  set (pools := zip (m_A m) (zip (m_deltas m) (m_lambdas m))).
  assert (Hpool : ∀ k t, pools !! k = Some t →
            length (extracted ρ t) = length gi ∧
            Rsum (extracted ρ t) = Rsum (ρ t.2.2) - Rsum (ρ t.2.1)).
  { intros k t Hk.
    destruct (pools_lookup_inv _ _ _ _ _ _ _ _ Hm Hk) as (l & Hl & Hvars & _).
    destruct (pool_matrix _ _ _ _ _ _ _ _ Hm Hl) as [Hin Hz].
    fold pools in Hz. rewrite Hk in Hz. injection Hz as ->. cbn [fst snd].
    rewrite extracted_closed_form. split.
    - by rewrite length_fmap, length_seq.
    - rewrite Rsum_scattered; [|done|rewrite length_zip_with, !Hρ; simpl; lia].
      apply Rsum_zip_with_minus. by rewrite !Hρ. }
  rewrite Rsum_vsum.
  - f_equal. rewrite <- list_fmap_compose. apply list_fmap_ext.
    intros k t Hk. simpl. by apply (Hpool k).
  - apply Forall_fmap, Forall_lookup. intros k t Hk. by apply (Hpool k).
Qed.

Lemma psi_conserves_totals_witness :
  ∃ m, build_model test_global_indices test_local_indices test_reserves
         test_fees test_market_value = Ok m ∧
       Rsum (eval arbitrage_trade (m_psi m)) = 0.1 ∧
       Rsum (eval arbitrage_trade (m_psi m))
       = Rsum ((λ t : matrix * (variable * variable),
                  Rsum (arbitrage_trade t.2.2) - Rsum (arbitrage_trade t.2.1))
                 <$> zip (m_A m) (zip (m_deltas m) (m_lambdas m))).
Proof.
  destruct arbitrage_trade_feasible as (m & Hm & _ & Hpsi & _).
  exists m. split; [exact Hm|]. split; [exact Hpsi|].
  apply (psi_conserves_totals _ _ _ _ _ _ arbitrage_trade Hm).
  intros x. apply arbitrage_trade_admissible.
Defined.

(** * What every feasible trade satisfies *)

Lemma elem_of_concat_intro {A} (x : A) (l : list A) (ls : list (list A)) :
  x ∈ l → l ∈ ls → x ∈ concat ls.
Proof.
  intros Hx Hl. induction ls as [|l' ls IH]; [by apply elem_of_nil in Hl|].
  simpl. apply elem_of_app. apply elem_of_cons in Hl as [-> | Hl]; [by left|].
  right. by apply IH.
Qed.

Lemma constraint_vars_in_problem (P : problem) c x :
  c ∈ prob_constraints P → x ∈ vars (constraint_expr c) → x ∈ problem_vars P.
Proof.
  intros Hc Hx. unfold problem_vars. apply elem_of_app. right.
  apply (elem_of_concat_intro _ (vars (constraint_expr c))); [done|].
  change (map ?f ?xs) with (f <$> xs). apply list_elem_of_fmap. by exists c.
Qed.

Lemma dot_nonneg u : ∀ v, nonneg_vec u → nonneg_vec v → 0 <= dot u v.
Proof.
  unfold dot. induction u as [|a u IH]; intros [|b v] Hu Hv; simpl; try lra.
  apply Forall_cons_1 in Hu as [Ha Hu]. apply Forall_cons_1 in Hv as [Hb Hv].
  specialize (IH v Hu Hv). pose proof (Rmult_le_pos a b Ha Hb). lra.
Qed.

(** X5 (no loss at non-negative prices).  When no market value is
    negative, every feasible trade, not only the optimum, has a
    non-negative objective value. *)
Theorem feasible_objective_nonneg gi li rs fs mv m ρ :
  build_model gi li rs fs mv = Ok m → nonneg_vec mv →
  feasible ρ (m_prob m) →
  0 <= objective_value ρ (prob_objective (m_prob m)).
Proof.
  intros Hm Hmv [_ Hsat].
  destruct (build_model_Ok _ _ _ _ _ _ Hm)
    as (terms & _ & _ & _ & _ & _ & _ & _ & Hcons & Hobj).
  destruct (build_cons_Ok _ _ _ _ Hcons)
    as (x0 & x1 & x2 & x3 & x4 & r0 & r1 & r2 & r3 & r4 & Hrest).
  destruct Hrest as (_ & _ & _ & _ & _ & _ & _ & _ & _ & _ & Heq).
  rewrite Heq in Hsat.
  assert (Hpsi : sat ρ (NonNeg (m_psi m))).
  { eapply (proj1 (Forall_lookup _ _)) in Hsat; [exact Hsat|].
    instantiate (1 := 6%nat). reflexivity. }
  rewrite Hobj. simpl. by apply dot_nonneg.
Qed.

Lemma feasible_objective_nonneg_witness :
  ∃ m, build_model test_global_indices test_local_indices test_reserves
         test_fees test_market_value = Ok m ∧
       feasible arbitrage_trade (m_prob m) ∧
       objective_value arbitrage_trade (prob_objective (m_prob m)) = 0.2 ∧
       0 <= objective_value arbitrage_trade (prob_objective (m_prob m)).
Proof.
  destruct arbitrage_trade_feasible as (m & Hm & Hfeas & _ & Hobj).
  exists m. split; [exact Hm|]. split; [exact Hfeas|]. split; [exact Hobj|].
  apply (feasible_objective_nonneg _ _ _ _ _ _ arbitrage_trade Hm); [|exact Hfeas].
  unfold nonneg_vec, test_market_value. repeat constructor; lra.
Defined.

Lemma Rsum_scale c v : Rsum (map (Rmult c) v) = c * Rsum v.
Proof. induction v as [|a v IH]; simpl; [lra|]. rewrite IH. lra. Qed.

Lemma Rsum_post_trade ρ R_ gamma_i D L :
  length (ρ D) = length R_ → length (ρ L) = length R_ →
  Rsum (eval ρ (post_trade_expr R_ gamma_i D L))
  = Rsum R_ + gamma_i * Rsum (ρ D) - Rsum (ρ L).
Proof.
  intros HD HL. rewrite eval_post_trade by done.
  rewrite Rsum_zip_with_minus by (rewrite length_zip_with, length_map; lia).
  rewrite Rsum_zip_with_plus by (rewrite length_map; lia).
  by rewrite Rsum_scale.
Qed.

(** The constraints on pool [k < 5], with its variables, in a model. *)
Lemma pool_constraint gi li rs fs mv m k l R_ gamma_i ρ :
  build_model gi li rs fs mv = Ok m → (k < 5)%nat →
  li !! k = Some l → rs !! k = Some R_ → fs !! k = Some gamma_i →
  length R_ = length l → feasible ρ (m_prob m) →
  let D := CpVar Deposit k (length l) true in
  let L := CpVar Withdraw k (length l) true in
  length (ρ D) = length R_ ∧ length (ρ L) = length R_ ∧
  nonneg_vec (ρ D) ∧ nonneg_vec (ρ L) ∧
  nonneg_vec (eval ρ (post_trade_expr R_ gamma_i D L)) ∧
  (k = 4%nat → Rsum R_ <= Rsum (eval ρ (post_trade_expr R_ gamma_i D L))).
Proof.
  intros Hm Hk Hl HR Hg Hlen [Hadm Hsat] D L.
  pose proof (new_reserves_lookup _ _ _ _ _ _ _ _ _ _ Hm Hl HR Hg) as Hx.
  fold D L in Hx.
  destruct (build_model_Ok _ _ _ _ _ _ Hm)
    as (terms & _ & _ & _ & _ & _ & _ & _ & Hcons & _).
  destruct (build_cons_Ok _ _ _ _ Hcons)
    as (x0 & x1 & x2 & x3 & x4 & r0 & r1 & r2 & r3 & r4 & Hrest).
  destruct Hrest as (H0 & H1 & H2 & H3 & H4 & Hr0 & Hr1 & Hr2 & Hr3 & Hr4 & Heq).
  rewrite Heq in Hsat.
  assert (Hc : ∃ c, c ∈ prob_constraints (m_prob m) ∧
                    constraint_expr c = post_trade_expr R_ gamma_i D L ∧
                    nonneg_vec (eval ρ (post_trade_expr R_ gamma_i D L))).
  { rewrite Heq.
    destruct k as [|[|[|[|[|k]]]]]; [| | | | |lia].
    - exists (GeoMeanGe x0 (Some [4; 3; 2; 1]%nat) r0). assert (x0 = post_trade_expr R_ gamma_i D L) as -> by congruence.
      split; [apply list_elem_of_here|]. split; [done|].
      apply Forall_cons_1 in Hsat as [[? _] _]. done.
    - exists (GeoMeanGe x1 None r1). assert (x1 = post_trade_expr R_ gamma_i D L) as -> by congruence.
      split; [do 1 apply list_elem_of_further; apply list_elem_of_here|]. split; [done|].
      do 1 apply Forall_cons_1 in Hsat as [_ Hsat].
      apply Forall_cons_1 in Hsat as [[? _] _]. done.
    - exists (GeoMeanGe x2 None r2). assert (x2 = post_trade_expr R_ gamma_i D L) as -> by congruence.
      split; [do 2 apply list_elem_of_further; apply list_elem_of_here|]. split; [done|].
      do 2 apply Forall_cons_1 in Hsat as [_ Hsat].
      apply Forall_cons_1 in Hsat as [[? _] _]. done.
    - exists (GeoMeanGe x3 None r3). assert (x3 = post_trade_expr R_ gamma_i D L) as -> by congruence.
      split; [do 3 apply list_elem_of_further; apply list_elem_of_here|]. split; [done|].
      do 3 apply Forall_cons_1 in Hsat as [_ Hsat].
      apply Forall_cons_1 in Hsat as [[? _] _]. done.
    - exists (NonNeg x4). assert (x4 = post_trade_expr R_ gamma_i D L) as -> by congruence.
      split; [do 5 apply list_elem_of_further; apply list_elem_of_here|]. split; [done|].
      do 5 apply Forall_cons_1 in Hsat as [_ Hsat].
      apply Forall_cons_1 in Hsat as [? _]. done. }
  destruct Hc as (c & Hc & Hce & Hnn).
  assert (HD : admissible ρ D).
  { apply Hadm. apply (constraint_vars_in_problem _ c); [done|].
    rewrite Hce. simpl. apply list_elem_of_here. }
  assert (HL : admissible ρ L).
  { apply Hadm. apply (constraint_vars_in_problem _ c); [done|].
    rewrite Hce. simpl. apply list_elem_of_further, list_elem_of_here. }
  destruct HD as [HDlen HDnn]. destruct HL as [HLlen HLnn]. simpl in *.
  repeat split; try congruence; try (by auto).
  intros ->. assert (x4 = post_trade_expr R_ gamma_i D L) as Hx4 by congruence.
  assert (r4 = R_) as -> by congruence.
  do 4 apply Forall_cons_1 in Hsat as [_ Hsat].
  apply Forall_cons_1 in Hsat as [Hsum _]. simpl in Hsum. by rewrite Hx4 in Hsum.
Qed.

(** X6 (constant-sum exchange).  In every feasible trade the withdrawals
    from the constant-sum pool, added over its slots, are at most its fee
    retention times the deposits into it. *)
Theorem constant_sum_exchange gi li rs fs mv m l R_ gamma_i ρ :
  build_model gi li rs fs mv = Ok m →
  li !! 4%nat = Some l → rs !! 4%nat = Some R_ → fs !! 4%nat = Some gamma_i →
  length R_ = length l → feasible ρ (m_prob m) →
  Rsum (ρ (CpVar Withdraw 4 (length l) true))
    <= gamma_i * Rsum (ρ (CpVar Deposit 4 (length l) true)).
Proof.
  intros Hm Hl HR Hg Hlen Hfeas.
  destruct (pool_constraint _ _ _ _ _ _ 4%nat _ _ _ ρ Hm ltac:(lia) Hl HR Hg Hlen Hfeas)
    as (HD & HL & _ & _ & _ & Hsum).
  specialize (Hsum eq_refl). rewrite Rsum_post_trade in Hsum by done. lra.
Qed.

Lemma constant_sum_exchange_witness :
  arbitrage_trade (CpVar Withdraw 4 2 true) = [1.1; 0] ∧
  arbitrage_trade (CpVar Deposit 4 2 true) = [0; 1.2] ∧
  Rsum (arbitrage_trade (CpVar Withdraw 4 2 true))
    <= 0.999 * Rsum (arbitrage_trade (CpVar Deposit 4 2 true)).
Proof.
  destruct arbitrage_trade_feasible as (m & Hm & Hfeas & _).
  split; [reflexivity|]. split; [reflexivity|].
  exact (constant_sum_exchange _ _ _ _ _ m [2; 3]%Z [10; 10] 0.999 arbitrage_trade
           Hm eq_refl eq_refl eq_refl eq_refl Hfeas).
Defined.

(** X7 (no overdraft in the first five pools).  In every feasible trade,
    for each of the pools at positions 0 to 4 and each of its slots, the
    withdrawal is at most the reserve plus the fee retention times the
    deposit, and deposit and withdrawal are non-negative. *)
Theorem first_pools_not_overdrawn gi li rs fs mv m k l R_ gamma_i ρ j r d w :
  build_model gi li rs fs mv = Ok m → (k < 5)%nat →
  li !! k = Some l → rs !! k = Some R_ → fs !! k = Some gamma_i →
  length R_ = length l → feasible ρ (m_prob m) →
  R_ !! j = Some r →
  ρ (CpVar Deposit k (length l) true) !! j = Some d →
  ρ (CpVar Withdraw k (length l) true) !! j = Some w →
  0 <= d ∧ 0 <= w ∧ w <= r + gamma_i * d.
Proof.
  intros Hm Hk Hl HR Hg Hlen Hfeas Hr Hd Hw.
  destruct (pool_constraint _ _ _ _ _ _ k _ _ _ ρ Hm Hk Hl HR Hg Hlen Hfeas)
    as (HD & HL & HDnn & HLnn & Hnn & _).
  split; [by eapply (proj1 (Forall_lookup _ _)) in HDnn; eauto|].
  split; [by eapply (proj1 (Forall_lookup _ _)) in HLnn; eauto|].
  rewrite eval_post_trade in Hnn by done.
  assert (Hent : zip_with Rminus (zip_with Rplus R_ (map (Rmult gamma_i)
                   (ρ (CpVar Deposit k (length l) true))))
                   (ρ (CpVar Withdraw k (length l) true)) !! j
                 = Some (r + gamma_i * d - w)).
  { apply lookup_zip_with_Some. exists (r + gamma_i * d), w.
    repeat split; [|done]. apply lookup_zip_with_Some. exists r, (gamma_i * d).
    repeat split; [done|]. change (map ?f ?xs) with (f <$> xs).
    by rewrite list_lookup_fmap, Hd. }
  eapply (proj1 (Forall_lookup _ _)) in Hnn; [|exact Hent]. simpl in Hnn. lra.
Qed.

Lemma first_pools_not_overdrawn_witness :
  (0 <= 0 ∧ 0 <= 1.2 ∧ 1.2 <= 50 + 0.997 * 0) ∧
  (0 <= 1.2 ∧ 0 <= 0 ∧ 0 <= 10 + 0.999 * 1.2).
Proof.
  destruct arbitrage_trade_feasible as (m & Hm & Hfeas & _).
  split.
  - exact (first_pools_not_overdrawn _ _ _ _ _ m 3%nat [2; 3]%Z [40; 50] 0.997
             arbitrage_trade 1%nat 50 0 1.2 Hm ltac:(lia) eq_refl eq_refl eq_refl
             eq_refl Hfeas eq_refl eq_refl eq_refl).
  - exact (first_pools_not_overdrawn _ _ _ _ _ m 4%nat [2; 3]%Z [10; 10] 0.999
             arbitrage_trade 1%nat 10 1.2 0 Hm ltac:(lia) eq_refl eq_refl eq_refl
             eq_refl Hfeas eq_refl eq_refl eq_refl).
Defined.

(** * A pool beyond the fifth *)

Lemma eval_ext ρ ρ' e : (∀ x, x ∈ vars e → ρ x = ρ' x) → eval ρ e = eval ρ' e.
Proof.
  induction e as [v|c|x|a IHa b IHb|a IHa b IHb|c a IHa|A a IHa]; intros H; simpl in *.
  - done.
  - done.
  - apply H. apply list_elem_of_here.
  - rewrite IHa, IHb; [done| |]; intros x Hx; apply H, elem_of_app; auto.
  - rewrite IHa, IHb; [done| |]; intros x Hx; apply H, elem_of_app; auto.
  - by rewrite IHa.
  - by rewrite IHa.
Qed.

Lemma sat_ext ρ ρ' c :
  eval ρ (constraint_expr c) = eval ρ' (constraint_expr c) → sat ρ c ↔ sat ρ' c.
Proof. destruct c; simpl; by intros ->. Qed.

Lemma sat_transfer ρ ρ' c :
  eval ρ (constraint_expr c) = eval ρ' (constraint_expr c) → sat ρ' c → sat ρ c.
Proof. intros H. by apply sat_ext. Qed.

Lemma drain_elsewhere k t x : vpool x ≠ k → drain k t x = zero_trade x.
Proof. intros Hx. unfold drain. rewrite decide_False; [done|]. by intros [_ ?]. Qed.

Lemma drain_deposit k t x : vkind_of x = Deposit → drain k t x = zero_trade x.
Proof.
  intros Hx. unfold drain. rewrite decide_False; [done|]. rewrite Hx. by intros [? _].
Qed.

Lemma drain_admissible k t x : 0 <= t → admissible (drain k t) x.
Proof.
  intros Ht. unfold admissible, drain. case_decide.
  - split; [by rewrite length_insert, length_replicate|].
    intros _. apply Forall_insert; [|done]. apply Forall_replicate. lra.
  - apply zero_trade_admissible.
Qed.

Lemma scattered_zeros n l v r : Forall (λ a, a = 0) v → scattered n l v r = 0.
Proof.
  intros Hv. revert l. induction Hv as [|a v -> _ IH]; intros [|idx l]; try done.
  rewrite scattered_cons, IH. case_decide; lra.
Qed.

Lemma dot_zip_with_plus c : ∀ u v,
  length u = length v → dot c (zip_with Rplus u v) = dot c u + dot c v.
Proof.
  unfold dot. induction c as [|a c IH]; intros [|x u] [|y v] Hlen; simpl in *;
    try done; try lra.
  rewrite IH by lia. lra.
Qed.

Lemma dot_vsum c n vs :
  Forall (λ v, length v = n) vs → dot c (vsum n vs) = Rsum (dot c <$> vs).
Proof.
  unfold vsum. intros Hvs.
  assert (Hgen : ∀ acc, length acc = n →
            dot c (foldl (zip_with Rplus) acc vs) = dot c acc + Rsum (dot c <$> vs)).
  { induction Hvs as [|v vs Hv _ IH]; intros acc Hacc; [simpl; lra|].
    rewrite fmap_cons, Rsum_cons. cbn [foldl].
    rewrite IH by (rewrite length_zip_with; lia).
    rewrite dot_zip_with_plus by lia. lra. }
  rewrite Hgen by apply length_replicate.
  rewrite dot_zeros by (by apply Forall_replicate). lra.
Qed.

Lemma vsum_nonneg n vs :
  Forall (λ v, length v = n ∧ nonneg_vec v) vs → nonneg_vec (vsum n vs).
Proof.
  unfold vsum. intros Hvs.
  assert (Hgen : ∀ acc, nonneg_vec acc → nonneg_vec (foldl (zip_with Rplus) acc vs)).
  { induction Hvs as [|v vs [_ Hv] _ IH]; intros acc Hacc; [done|].
    cbn [foldl]. apply IH. unfold nonneg_vec in *.
    eapply Forall_zip_with_fst; [exact Hacc|].
    eapply Forall_impl; [exact Hv|]. intros y Hy x Hx. simpl. lra. }
  apply Hgen, Forall_replicate. lra.
Qed.

(** The value at price vector [c] of an amount [y] of asset [j] alone. *)
Lemma dot_unit_out c y j : ∀ s,
  (j < s)%nat →
  dot c ((λ r, (if decide (r = j) then y else 0) + 0) <$> seq s (length c)) = 0.
Proof.
  unfold dot. induction c as [|a c IH]; intros s Hs; [done|].
  change (seq s (length (a :: c))) with (s :: seq (S s) (length c)).
  rewrite fmap_cons. cbn [zip_with]. rewrite Rsum_cons, IH by lia.
  rewrite decide_False by lia. lra.
Qed.

Lemma dot_unit c y j p : ∀ s,
  c !! j = Some p →
  dot c ((λ r, (if decide (r = (s + j)%nat) then y else 0) + 0) <$> seq s (length c))
  = p * y.
Proof.
  revert j. induction c as [|a c IH]; intros j s Hj; [done|].
  change (seq s (length (a :: c))) with (s :: seq (S s) (length c)).
  rewrite fmap_cons. unfold dot. cbn [zip_with]. rewrite Rsum_cons.
  fold (dot c ((λ r, (if decide (r = (s + j)%nat) then y else 0) + 0)
                 <$> seq (S s) (length c))).
  destruct j as [|j]; simpl in Hj.
  - injection Hj as ->. rewrite decide_True by lia.
    rewrite dot_unit_out by lia. lra.
  - rewrite decide_False by lia.
    replace (s + S j)%nat with (S s + j)%nat by lia.
    rewrite (IH j (S s) Hj). lra.
Qed.

Lemma Rsum_single (vs : list R) k y :
  vs !! k = Some y → (∀ i z, i ≠ k → vs !! i = Some z → z = 0) → Rsum vs = y.
Proof.
  revert k. induction vs as [|a vs IH]; intros k Hk Hz; [done|].
  rewrite Rsum_cons. destruct k as [|k]; simpl in Hk.
  - injection Hk as ->.
    assert (Rsum vs = 0) as ->; [|lra].
    assert (Hall : Forall (λ z, z = 0) vs).
    { apply Forall_lookup. intros i z Hi. by apply (Hz (S i)). }
    clear -Hall. induction Hall as [|z vs -> _ IH]; [done|].
    rewrite Rsum_cons, IH. lra.
  - rewrite (IH k Hk); [|intros i z Hi; apply (Hz (S i)); lia].
    rewrite (Hz 0%nat a); [lra|lia|done].
Qed.

Lemma market_value_length gi li rs fs mv m :
  build_model gi li rs fs mv = Ok m → length mv = length gi.
Proof.
  intros Hm.
  destruct (build_model_Ok _ _ _ _ _ _ Hm) as (terms & _ & _ & _ & _ & _ & Hsh & _).
  destruct (psi_is_sum _ _ _ _ _ _ Hm) as [Hpsi Hne].
  pose proof (terms_shape _ _ _ _ _ _ Hm) as Hts.
  rewrite Hpsi in Hsh.
  rewrite (shape_of_sum (length gi) _ _ Sc) in Hsh; [congruence|done|by left|by left|].
  apply Forall_fmap. eapply Forall_impl; [exact Hts|]. by intros t [? _].
Qed.

Lemma zeros_minus_zeros a b :
  Forall (λ x, x = 0) (zip_with Rminus (replicate a 0) (replicate b 0)).
Proof.
  apply Forall_lookup. intros i x Hi.
  apply lookup_zip_with_Some in Hi as (u & v & -> & Hu & Hv).
  apply lookup_replicate in Hu as [-> _]. apply lookup_replicate in Hv as [-> _]. lra.
Qed.

Lemma extracted_drain gi li rs fs mv m k t i l tp :
  build_model gi li rs fs mv = Ok m → li !! i = Some l →
  zip (m_A m) (zip (m_deltas m) (m_lambdas m)) !! i = Some tp →
  (i ≠ k → extracted (drain k t) tp = (λ _, 0) <$> seq 0 (length gi)) ∧
  (i = k → ∀ idx, l !! 0%nat = Some idx →
     extracted (drain k t) tp
     = (λ r, (if decide (r = resolve (length gi) idx) then t - 0 else 0) + 0)
         <$> seq 0 (length gi)).
Proof.
  intros Hm Hl Htp. destruct (pool_matrix _ _ _ _ _ _ _ _ Hm Hl) as [_ Hz].
  rewrite Htp in Hz. injection Hz as ->. rewrite extracted_closed_form.
  cbn [fst snd]. rewrite (drain_deposit k t (CpVar Deposit i (length l) true)) by done.
  split.
  - intros Hne. rewrite drain_elsewhere by done. apply list_fmap_ext. intros j r _.
    apply scattered_zeros, zeros_minus_zeros.
  - intros -> idx Hidx. destruct l as [|idx' l]; [done|]. injection Hidx as ->.
    unfold drain. rewrite decide_True by done. apply list_fmap_ext. intros j r _.
    unfold zero_trade. simpl. rewrite scattered_cons. f_equal.
    apply scattered_zeros, zeros_minus_zeros.
Qed.

(** X8 (a pool beyond the fifth can be drained).  Let zero trade be
    feasible and let pool [k], at position 5 or beyond, have the global
    asset [j] in its first slot, priced [p].  Then withdrawing any amount
    [t >= 0] of it from that pool, and trading nothing else, is feasible and
    is worth [p * t]; so with [p > 0] the program is unbounded. *)
Theorem extra_pool_unbounded gi li rs fs mv m k l idx p :
  build_model gi li rs fs mv = Ok m → (5 ≤ k)%nat →
  li !! k = Some l → l !! 0%nat = Some idx →
  mv !! resolve (length gi) idx = Some p →
  feasible zero_trade (m_prob m) →
  (∀ t, 0 <= t →
     feasible (drain k t) (m_prob m) ∧
     objective_value (drain k t) (prob_objective (m_prob m)) = p * t) ∧
  (0 < p → ∀ M, ∃ ρ, feasible ρ (m_prob m) ∧
                     M < objective_value ρ (prob_objective (m_prob m))).
Proof.
  intros Hm Hk Hl Hidx Hp [_ Hzero].
  set (pools := zip (m_A m) (zip (m_deltas m) (m_lambdas m))).
  pose proof (market_value_length _ _ _ _ _ _ Hm) as Hmv.
  destruct (build_model_Ok _ _ _ _ _ _ Hm)
    as (terms & _ & _ & _ & _ & _ & _ & _ & Hcons & Hobj).
  destruct (build_cons_Ok _ _ _ _ Hcons)
    as (x0 & x1 & x2 & x3 & x4 & r0 & r1 & r2 & r3 & r4 & Hrest).
  destruct Hrest as (H0 & H1 & H2 & H3 & H4 & _ & _ & _ & _ & _ & Heq).
  assert (Hmain : ∀ t, 0 <= t →
            feasible (drain k t) (m_prob m) ∧
            objective_value (drain k t) (prob_objective (m_prob m)) = p * t).
  { intros t Ht.
    assert (Hsame : ∀ j x, (j < 5)%nat → m_new_reserves m !! j = Some x →
              eval (drain k t) x = eval zero_trade x).
    { intros j x Hj Hx. apply eval_ext. intros v Hv. apply drain_elsewhere.
      rewrite (vars_new_reserves _ _ _ _ _ _ _ _ _ Hm Hx Hv). lia. }
    pose proof (eval_psi _ _ _ _ _ _ (drain k t) Hm
                  (λ x, proj1 (drain_admissible k t x Ht))) as Hpsi.
    fold pools in Hpsi.
    assert (Hpool : ∀ i tp, pools !! i = Some tp →
              length (extracted (drain k t) tp) = length gi ∧
              nonneg_vec (extracted (drain k t) tp) ∧
              dot mv (extracted (drain k t) tp) = if decide (i = k) then p * t else 0).
    { intros i tp Htp.
      destruct (pools_lookup_inv _ _ _ _ _ _ _ _ Hm Htp) as (l' & Hl' & _).
      destruct (extracted_drain _ _ _ _ _ _ k t _ _ _ Hm Hl' Htp) as [Hother Hk'].
      destruct (decide (i = k)) as [->|Hne].
      - assert (l' = l) as -> by congruence.
        rewrite (Hk' eq_refl idx Hidx). split; [by rewrite length_fmap, length_seq|].
        split.
        + apply Forall_fmap, Forall_forall. intros r _. simpl. case_decide; lra.
        + pose proof (dot_unit mv (t - 0) (resolve (length gi) idx) p 0%nat Hp) as Hd.
          cbn [Nat.add] in Hd. rewrite Hmv in Hd. rewrite Hd. lra.
      - rewrite (Hother Hne). split; [by rewrite length_fmap, length_seq|]. split.
        + apply Forall_fmap, Forall_forall. intros r _. simpl. lra.
        + apply dot_zeros. apply Forall_fmap, Forall_forall. by intros r _. }
    split; [split|].
    - intros x _. by apply drain_admissible.
    - rewrite Heq in Hzero |- *.
      repeat (apply Forall_cons_1 in Hzero as [? Hzero]).
      repeat apply List.Forall_cons; try apply List.Forall_nil.
      + apply (sat_transfer _ zero_trade); [apply (Hsame 0%nat); [lia|done]|done].
      + apply (sat_transfer _ zero_trade); [apply (Hsame 1%nat); [lia|done]|done].
      + apply (sat_transfer _ zero_trade); [apply (Hsame 2%nat); [lia|done]|done].
      + apply (sat_transfer _ zero_trade); [apply (Hsame 3%nat); [lia|done]|done].
      + apply (sat_transfer _ zero_trade); [apply (Hsame 4%nat); [lia|done]|done].
      + apply (sat_transfer _ zero_trade); [apply (Hsame 4%nat); [lia|done]|done].
      + simpl. rewrite Hpsi.
        apply vsum_nonneg, Forall_fmap, Forall_lookup. intros i tp Htp.
        destruct (Hpool i tp Htp) as (? & ? & _). done.
    - rewrite Hobj. simpl. rewrite Hpsi, dot_vsum.
      + destruct (pools_lookup _ _ _ _ _ _ _ _ Hm Hl) as (A_k & Hz & _).
        fold pools in Hz.
        apply (Rsum_single _ k).
        * rewrite !list_lookup_fmap, Hz. cbn [fmap option_fmap option_map]. f_equal.
          destruct (Hpool k _ Hz) as (_ & _ & ->). by rewrite decide_True.
        * intros i z Hi Hz'. rewrite !list_lookup_fmap in Hz'.
          destruct (pools !! i) as [tp|] eqn:Htp; [|done].
          cbn [fmap option_fmap option_map] in Hz'.
          injection Hz' as <-. destruct (Hpool i tp Htp) as (_ & _ & ->).
          by rewrite decide_False.
      + apply Forall_fmap, Forall_lookup. intros i tp Htp.
        by destruct (Hpool i tp Htp) as (? & _). }
  split; [exact Hmain|].
  intros Hpos M. exists (drain k ((Rabs M + 1) / p)).
  destruct (Hmain ((Rabs M + 1) / p)) as [Hfeas ->].
  { pose proof (Rabs_pos M). apply Rle_mult_inv_pos; lra. }
  split; [done|]. unfold Rdiv. rewrite <- Rmult_assoc, Rmult_comm, <- Rmult_assoc.
  rewrite Rinv_l by lra. pose proof (Rle_abs M). lra.
Qed.

Lemma six_pools_build :
  succeeds (build_model test_global_indices six_local_indices six_reserves
              six_fees test_market_value).
Proof. eexists. reflexivity. Qed.

Lemma extra_pool_unbounded_witness :
  ∃ m ρ, build_model test_global_indices six_local_indices six_reserves
           six_fees test_market_value = Ok m ∧
         feasible ρ (m_prob m) ∧
         1000 < objective_value ρ (prob_objective (m_prob m)).
Proof.
  destruct six_pools_build as [m Hm].
  destruct (extra_pool_unbounded _ _ _ _ _ m 5%nat [0; 1]%Z 0%Z 1.5 Hm) as [_ Hunb].
  - lia.
  - reflexivity.
  - reflexivity.
  - reflexivity.
  - apply (zero_trade_feasible_balanced _ _ _ _ _ _ 4 Hm); [|reflexivity].
    unfold six_local_indices, six_reserves, test_local_indices, test_reserves.
    intros k l R_ Hk. destruct k as [|[|[|[|[|k]]]]]; [| | | | |lia];
      simpl; intros [= <-] [= <-]; (split; [reflexivity | repeat constructor; lra]).
  - destruct (Hunb ltac:(lra) 1000) as (ρ & Hfeas & Hobj).
    exists m, ρ. split; [exact Hm|]. split; [exact Hfeas | exact Hobj].
Defined.

(** * Which failure comes first *)

(** X9 (an index out of range comes first).  If every listed index fits a
    signed 64-bit integer and some pool lists an index [idx] with
    [idx >= n] or [idx < -n], the call raises [IndexError] whatever the
    reserves, fees, market values and solver are: the index mapper runs
    before anything else looks at the input. *)
Theorem index_error_comes_first {Status} (solve : problem → Status) gi li rs fs mv :
  Forall (Forall fits_intp) li →
  (∃ l idx, l ∈ li ∧ idx ∈ l ∧
     (idx < - Z.of_nat (length gi) ∨ Z.of_nat (length gi) ≤ idx)%Z) →
  solve_arbitrage solve gi li rs fs mv = Raise IndexError.
Proof.
  intros Hfit (l & idx & Hl & Hidx & Hout).
  apply solve_arbitrage_Raise. unfold build_model, build_expressions.
  assert (build_A (length gi) li = Raise IndexError) as ->; [|done].
  assert (Hfails : fails (build_A (length gi) li)).
  { apply (traverse_one_fails _ _ l); [done|].
    apply incidence_raises, Exists_exists. exists idx. split; [done|].
    unfold in_range. lia. }
  destruct Hfails as [e He]. rewrite He. f_equal.
  apply traverse_Raise in He as (l' & Hl' & Hinc).
  eapply incidence_error; [|exact Hinc].
  by eapply (proj1 (Forall_forall _ _)) in Hfit.
Qed.

Lemma index_error_comes_first_witness :
  solve_arbitrage (λ _ : problem, ()) test_global_indices
    [[0; 1; 2; 3]; [0; 4]]%Z [] [] [] = Raise IndexError.
Proof.
  apply index_error_comes_first.
  - repeat apply List.Forall_cons; try apply List.Forall_nil;
      unfold fits_intp; lia.
  - exists [0; 4]%Z, 4%Z. repeat split.
    + apply list_elem_of_further, list_elem_of_here.
    + apply list_elem_of_further, list_elem_of_here.
    + right. simpl. lia.
Defined.

(** X11 (prices of the wrong length).  If numpy accepts every index, no
    pool is empty, there is at least one pool and [market_value] does not
    have one entry per global asset, the call raises [ValueError] when the
    objective is formed, before reserves and fees are looked at. *)
Theorem price_length_raises_ValueError {Status} (solve : problem → Status)
    gi li rs fs mv :
  Forall (Forall (in_range (length gi))) li → Forall (λ l, l ≠ []) li → li ≠ [] →
  length mv ≠ length gi →
  solve_arbitrage solve gi li rs fs mv = Raise ValueError.
Proof.
  intros Hidx Hne Hsome Hmv. apply solve_arbitrage_Raise.
  unfold build_model, build_expressions.
  destruct (build_A_succeeds _ _ Hidx) as [A HA].
  destruct (variables_succeeds Deposit li) as [ds Hds].
  destruct (variables_succeeds Withdraw li) as [ls Hls].
  destruct (extraction_terms_succeed _ _ _ _ _ HA Hds Hls) as [Hterms Hshapes].
  destruct (variables_spec _ _ _ Hds) as [Hdlen _].
  destruct (variables_spec _ _ _ Hls) as [Hllen _].
  pose proof (traverse_Ok_length _ _ _ HA) as HAlen.
  assert (Hnonempty : term_of <$> zip A (zip ds ls) ≠ []).
  { intros Hnil. apply (f_equal length) in Hnil.
    rewrite length_fmap, !length_zip in Hnil. simpl in Hnil.
    destruct li; [done|]. simpl in *. lia. }
  rewrite HA, bind_Ok_l, Hds, bind_Ok_l, Hls, bind_Ok_l, Hterms, bind_Ok_l.
  rewrite (cp_sum_list_succeeds _ _ Hnonempty Hshapes), bind_Ok_l.
  unfold cp_matmul_list.
  rewrite (shape_of_sum (length gi) _ _ Sc); [|done|by left|by left|done].
  rewrite bind_Ok_l. rewrite decide_False; [done|]. intros [= Heq]. congruence.
Qed.

Lemma price_length_raises_ValueError_witness :
  solve_arbitrage (λ _ : problem, ()) test_global_indices test_local_indices
    test_reserves test_fees [1.5; 10; 2] = Raise ValueError.
Proof.
  apply price_length_raises_ValueError.
  - repeat constructor; unfold in_range; simpl; lia.
  - repeat constructor; discriminate.
  - discriminate.
  - simpl. lia.
Defined.

(** * What a successful call tells about its input *)




(** * The decision variables *)

Lemma vars_foldl_Add ts : ∀ e x,
  x ∈ vars (foldl Add e ts) ↔ x ∈ vars e ∨ ∃ t, t ∈ ts ∧ x ∈ vars t.
Proof.
  induction ts as [|t ts IH]; intros e x; simpl.
  - split; [by left|]. intros [?|(t & Ht & _)]; [done|]. by apply elem_of_nil in Ht.
  - rewrite IH. simpl. rewrite elem_of_app. split.
    + intros [[?|?]|(t' & Ht' & Hx)].
      * by left.
      * right. exists t. split; [apply list_elem_of_here|done].
      * right. exists t'. split; [by apply list_elem_of_further|done].
    + intros [?|(t' & Ht' & Hx)]; [by left; left|].
      apply elem_of_cons in Ht' as [-> | Ht']; [by left; right|].
      right. by exists t'.
Qed.

Lemma vars_psi gi li rs fs mv m x :
  build_model gi li rs fs mv = Ok m →
  x ∈ vars (m_psi m) ↔ x ∈ m_deltas m ∨ x ∈ m_lambdas m.
Proof.
  intros Hm. destruct (psi_is_sum _ _ _ _ _ _ Hm) as [-> _].
  destruct (pools_length _ _ _ _ _ _ Hm) as (HAl & Hdl & Hll & _).
  rewrite vars_foldl_Add. simpl. split.
  - intros [Hx|(t & Ht & Hx)]; [by apply elem_of_nil in Hx|].
    apply list_elem_of_fmap in Ht as ([A_k [D L]] & -> & Htp).
    apply list_elem_of_lookup in Htp as [k Hk].
    apply lookup_zip_with_Some in Hk as (A' & [D' L'] & [= <- <- <-] & _ & Hk).
    apply lookup_zip_with_Some in Hk as (D' & L' & [= <- <-] & HD & HL).
    simpl in Hx. apply elem_of_cons in Hx as [-> | Hx].
    + right. by eapply list_elem_of_lookup_2.
    + apply elem_of_cons in Hx as [-> | Hx]; [|by apply elem_of_nil in Hx].
      left. by eapply list_elem_of_lookup_2.
  - intros Hx. right.
    assert (∃ k A_k D L, m_A m !! k = Some A_k ∧ m_deltas m !! k = Some D ∧
              m_lambdas m !! k = Some L ∧ (x = D ∨ x = L)) as (k & A_k & D & L & HA & HD & HL & Hx').
    { destruct Hx as [Hx|Hx]; apply list_elem_of_lookup in Hx as [k Hk];
        pose proof (lookup_lt_Some _ _ _ Hk) as Hlt.
      - destruct (m_A m !! k) as [A_k|] eqn:HA; [|apply lookup_ge_None in HA; lia].
        destruct (m_lambdas m !! k) as [L|] eqn:HL; [|apply lookup_ge_None in HL; lia].
        exists k, A_k, x, L. auto.
      - destruct (m_A m !! k) as [A_k|] eqn:HA; [|apply lookup_ge_None in HA; lia].
        destruct (m_deltas m !! k) as [D|] eqn:HD; [|apply lookup_ge_None in HD; lia].
        exists k, A_k, D, x. auto. }
    exists (term_of (A_k, (D, L))). split.
    + apply list_elem_of_fmap. exists (A_k, (D, L)). split; [done|].
      apply (list_elem_of_lookup_2 _ k). apply lookup_zip_with_Some.
      eexists _, _. repeat split; [done|]. apply lookup_zip_with_Some.
      eexists _, _. repeat split; done.
    + simpl. destruct Hx' as [-> | ->].
      * apply list_elem_of_further, list_elem_of_here.
      * apply list_elem_of_here.
Qed.

(** X14 (decision variables).  The variables that occur in the program
    handed to the solver are exactly the returned deposit and withdrawal
    variables; each is declared non-negative and has the size of its pool's
    index list. *)
Theorem decision_variables gi li rs fs mv m x :
  build_model gi li rs fs mv = Ok m →
  (x ∈ problem_vars (m_prob m) ↔ x ∈ m_deltas m ∨ x ∈ m_lambdas m) ∧
  (x ∈ problem_vars (m_prob m) →
     vnonneg x = true ∧ ∃ l, li !! vpool x = Some l ∧ vsize x = length l).
Proof.
  intros Hm.
  destruct (build_model_Ok _ _ _ _ _ _ Hm)
    as (terms & _ & Hds & Hls & _ & _ & _ & _ & Hcons & Hobj).
  assert (Hiff : x ∈ problem_vars (m_prob m) ↔ x ∈ m_deltas m ∨ x ∈ m_lambdas m).
  { split.
    - unfold problem_vars. rewrite Hobj. simpl. rewrite elem_of_app.
      intros [Hx|Hx]; [by apply (vars_psi _ _ _ _ _ _ _ Hm)|].
      apply list_elem_of_In, in_concat in Hx as (vs & Hvs & Hx).
      apply in_map_iff in Hvs as (c & <- & Hc).
      apply list_elem_of_In in Hx, Hc.
      destruct (build_cons_Ok _ _ _ _ Hcons)
        as (x0 & x1 & x2 & x3 & x4 & r0 & r1 & r2 & r3 & r4 & Hrest).
      destruct Hrest as (H0 & H1 & H2 & H3 & H4 & _ & _ & _ & _ & _ & Heq).
      assert (Hnr : ∀ j e, m_new_reserves m !! j = Some e → x ∈ vars e →
                x ∈ m_deltas m ∨ x ∈ m_lambdas m).
      { intros j e He Hxe.
        destruct (new_reserves_lookup_inv _ _ _ _ _ _ _ _ Hm He)
          as (l & R_ & g & Hl & _ & _ & -> & _).
        destruct (pools_lookup _ _ _ _ _ _ _ _ Hm Hl) as (A_k & _ & _ & HD & HL & _).
        simpl in Hxe. apply elem_of_cons in Hxe as [-> | Hxe].
        - left. by eapply list_elem_of_lookup_2.
        - apply elem_of_cons in Hxe as [-> | Hxe]; [|by apply elem_of_nil in Hxe].
          right. by eapply list_elem_of_lookup_2. }
      rewrite Heq in Hc.
      repeat (apply elem_of_cons in Hc as [-> | Hc]); simpl in Hx;
        try (by apply elem_of_nil in Hc); eauto.
      by apply (vars_psi _ _ _ _ _ _ _ Hm).
    - intros Hx. unfold problem_vars. rewrite Hobj. simpl.
      apply elem_of_app. left. by apply (vars_psi _ _ _ _ _ _ _ Hm). }
  split; [exact Hiff|]. intros Hx. apply Hiff in Hx.
  destruct Hx as [Hx|Hx]; apply list_elem_of_lookup in Hx as [k Hk].
  - destruct (variables_lookup_inv _ _ _ _ _ Hds Hk) as (l & Hl & ->).
    split; [done|]. by exists l.
  - destruct (variables_lookup_inv _ _ _ _ _ Hls Hk) as (l & Hl & ->).
    split; [done|]. by exists l.
Qed.

Lemma decision_variables_witness :
  ∃ m, build_model test_global_indices test_local_indices test_reserves
         test_fees test_market_value = Ok m ∧
       (CpVar Deposit 1 2 true ∈ problem_vars (m_prob m) ↔
        CpVar Deposit 1 2 true ∈ m_deltas m ∨ CpVar Deposit 1 2 true ∈ m_lambdas m).
Proof.
  destruct test_builds as [m Hm]. exists m. split; [exact Hm|].
  exact (proj1 (decision_variables _ _ _ _ _ _ (CpVar Deposit 1 2 true) Hm)).
Defined.

(** * The test *)

(** X15 (the test cannot pass).  Whatever the data and the solver, the
    body of [test_arbitrage] does not pass.  When the call succeeds and the
    number of pools differs from the number of global assets, as in the
    reference data (five pools, four assets), it stops with a failed
    assertion: on line 26 if the status is not ["optimal"], on line 27
    otherwise, because [len(deltas)] is the number of pools.  With as many
    pools as assets and an optimal status it stops on line 29, where
    [A.shape] is asked of a list. *)
Theorem test_cannot_pass (solve : problem → string) gi li rs fs mv :
  test_body solve gi li rs fs mv ≠ Passed ∧
  ∀ m, build_model gi li rs fs mv = Ok m →
    test_body solve gi li rs fs mv
    = if negb (bool_decide (solve (m_prob m) = "optimal"))
      then Failed (AssertionError 26)
      else if negb (bool_decide (length li = length gi))
      then Failed (AssertionError 27)
      else Failed (AttributeError 29).
Proof.
  assert (Hrun : ∀ m, build_model gi li rs fs mv = Ok m →
            test_body solve gi li rs fs mv
            = test_checks (solve (m_prob m)) (m_deltas m) (m_lambdas m) (m_A m) gi li).
  { intros m Hm. unfold test_body, solve_arbitrage. by rewrite Hm. }
  split.
  - destruct (build_model gi li rs fs mv) as [m|e] eqn:Hm.
    + rewrite (Hrun m eq_refl). unfold test_checks. by repeat case_match.
    + unfold test_body, solve_arbitrage. by rewrite Hm.
  - intros m Hm. rewrite (Hrun m Hm). unfold test_checks.
    destruct (pools_length _ _ _ _ _ _ Hm) as (_ & -> & -> & _).
    destruct (negb (bool_decide (solve (m_prob m) = "optimal"))); [done|].
    destruct (negb (bool_decide (length li = length gi))); [done|].
    by rewrite bool_decide_eq_true_2.
Qed.

Lemma test_cannot_pass_witness :
  test_arbitrage (λ _, "optimal") = Failed (AssertionError 27) ∧
  test_arbitrage (λ _, "infeasible") = Failed (AssertionError 26).
Proof.
  destruct test_builds as [m Hm]. unfold test_arbitrage. split.
  - exact (proj2 (test_cannot_pass (λ _, "optimal") _ _ _ _ _) m Hm).
  - exact (proj2 (test_cannot_pass (λ _, "infeasible") _ _ _ _ _) m Hm).
Defined.

(** * Zero trade when the first pool is balanced *)

(** X16 (balanced first pool).  When the reserves are non-negative, each
    reserve vector of the first five pools is as long as its index list and
    the four reserves of the first pool are equal, zero trade is feasible
    with objective value 0, and so no optimum has a negative value. *)
Theorem balanced_first_pool_optimum gi li rs fs mv m c :
  build_model gi li rs fs mv = Ok m →
  (∀ k l R_, (k < 5)%nat → li !! k = Some l → rs !! k = Some R_ →
     length R_ = length l ∧ nonneg_vec R_) →
  rs !! 0%nat = Some [c; c; c; c] →
  feasible zero_trade (m_prob m) ∧
  objective_value zero_trade (prob_objective (m_prob m)) = 0 ∧
  ∀ ρ, optimal_at ρ (m_prob m) → 0 <= objective_value ρ (prob_objective (m_prob m)).
Proof.
  intros Hm Hrs Hr0.
  pose proof (zero_trade_feasible_balanced _ _ _ _ _ _ c Hm Hrs Hr0) as Hfeas.
  split; [done|]. split.
  - by apply (zero_trade_feasible_iff _ _ _ _ _ _ Hm Hrs).
  - intros ρ Hopt. by apply (optimum_nonneg _ _ _ _ _ _ ρ Hm Hrs).
Qed.

Lemma balanced_first_pool_optimum_witness :
  ∃ m, build_model test_global_indices test_local_indices test_reserves
         test_fees test_market_value = Ok m ∧
       feasible zero_trade (m_prob m).
Proof.
  destruct test_builds as [m Hm]. exists m. split; [exact Hm|].
  destruct (balanced_first_pool_optimum _ _ _ _ _ _ 4 Hm) as [Hfeas _].
  - intros k l R_ Hk. destruct k as [|[|[|[|[|k]]]]]; [| | | | |lia];
      simpl; intros [= <-] [= <-]; (split; [reflexivity | repeat constructor; lra]).
  - reflexivity.
  - exact Hfeas.
Defined.
